(** * Nearest-neighbour tours over a weighted road network

    A shallow embedding of [nearestNeighbor.py]: the shortest-path queries
    ([shortest_path_length]), the tour builder ([nearest_neighbor]), the
    region slicing done in [main] and the text files of [save_data],
    [load_data] and [get_rest_homes].

    Conventions.
    - Node identifiers are strings; an identifier that [read_network] turned
      into an integer is written in decimal.
    - Edge weights and distances are exact integers ([Z]): this is the
      program on a network with whole-number weights, where no sum is
      rounded. The networks that [read_network] loads carry floats; the
      module [Binary64] is the same code over binary64 numbers, and shows
      where rounding makes a difference.
    - A [networkx.Graph] is its adjacency dictionary [G._adj], a map from a
      node to the map of its neighbours with the weight of the joining edge.
    - A Python exception is a value of [exn]; a call that can raise returns a
      [result].
    - The list object [homes] that [nearest_neighbor] mutates in place is
      threaded explicitly: the function returns the final content of the
      caller's list next to its outcome.
    - The files of the working directory are a map from a path to a text;
      a function that writes returns the new map. A file has one path:
      two spellings of a path to the same file are not modelled, and
      opening a file for writing succeeds. *)

From Stdlib Require Import ZArith Lia Ascii Floats.
From stdpp Require Import gmap strings list fin_maps.

Open Scope string_scope.
Open Scope list_scope.
Open Scope Z_scope.

Set Warnings "-inexact-float".

(** ** Exceptions and results *)

Inductive exn : Type :=
| IndexError        (* list index out of range *)
| ValueError        (* list.remove / list.index / argmin of [] *)
| TypeError         (* a value of the wrong shape *)
| NodeNotFound      (* the engine's NodeNotFound *)
| Unreachable       (* the engine's "no path" failure *)
| RecursionLimit.   (* the bound on the turns of a loop was exhausted *)

Inductive result (A : Type) : Type :=
| Ok (a : A)
| Raise (e : exn).
Arguments Ok {A} a.
Arguments Raise {A} e.

#[global] Instance result_ret : MRet result := λ A a, Ok a.
#[global] Instance result_bind : MBind result := λ A B k r,
  match r with
  | Ok a => k a
  | Raise e => Raise e
  end.

#[global] Instance exn_eq_dec : EqDecision exn.
Proof. solve_decision. Defined.

(** ** The graph store *)

Abbreviation node := string.
Abbreviation graph := (gmap string (gmap string Z)).

Definition has_node (g : graph) (v : node) : bool :=
  bool_decide (is_Some (g !! v)).

(** [G._adj[v]], empty for a key that is absent. *)
Definition adj (g : graph) (v : node) : gmap string Z :=
  default ∅ (g !! v).

(** [G[u][v]['weight']] when the edge is there. *)
Definition edge_weight (g : graph) (u v : node) : option Z :=
  adj g u !! v.

Definition add_node (v : node) (g : graph) : graph :=
  match g !! v with
  | Some _ => g
  | None => <[v := ∅]> g
  end.

(** [G.add_edge(u, v, weight=w)]: both endpoints become nodes and the edge
    is stored in both directions. *)
Definition add_edge (u v : node) (w : Z) (g : graph) : graph :=
  let g1 := <[u := <[v := w]> (adj g u)]> g in
  <[v := <[u := w]> (adj g1 v)]> g1.

Definition nonneg_weights (g : graph) : bool :=
  forallb (λ um : node * gmap string Z,
             forallb (λ vw : node * Z, bool_decide (0 ≤ vw.2))
                     (map_to_list um.2))
          (map_to_list g).

(** Sum of the weights of the consecutive edges of a node sequence;
    [None] when two consecutive nodes are not joined by an edge. *)
Fixpoint path_weight (g : graph) (p : list node) : option Z :=
  match p with
  | [] => Some 0
  | u :: rest =>
      match rest with
      | [] => Some 0
      | v :: _ =>
          match edge_weight g u v, path_weight g rest with
          | Some w, Some r => Some (w + r)
          | _, _ => None
          end
      end
  end.

(** A walk from [s] to [t]: a node sequence that starts with [s], ends with
    [t] and follows edges of the graph. *)
Definition is_walk (g : graph) (s t : node) (p : list node) : Prop :=
  head p = Some s ∧ last p = Some t ∧ is_Some (path_weight g p).

Definition reachable (g : graph) (s t : node) : Prop :=
  ∃ p, is_walk g s t p.

(** ** The shortest-path engine

    The program calls [networkx.shortest_path_length] and
    [networkx.shortest_path]; networkx is a library, its code is not part of
    the program. The engine below follows section 4.1 of the specification:
    a single-source search in the style of Dijkstra, with a priority queue,
    that yields the least cumulative weight to every node it reaches and a
    predecessor link from which a path is read back. *)

(** An entry of the priority queue: tentative distance, node, predecessor. *)
Definition entry : Type := Z * node * option node.
Definition ekey (e : entry) : Z := e.1.1.
Definition enode (e : entry) : node := e.1.2.
Definition epred (e : entry) : option node := e.2.

(** Modelled from the spec: the priority queue of the search. Pops the entry
    with the least distance, the earliest pushed among equals (the queue is
    kept in push order). *)
Fixpoint pop_min (F : list entry) : option (entry * list entry) :=
  match F with
  | [] => None
  | e :: F' =>
      match pop_min F' with
      | None => Some (e, [])
      | Some (m, R) =>
          if ekey m <? ekey e then Some (m, e :: R) else Some (e, F')
      end
  end.

(** The settled nodes, latest first: node, final distance, predecessor. *)
Definition settled : Type := list (node * (Z * option node)).

Fixpoint settled_lookup (v : node) (S : settled) : option (Z * option node) :=
  match S with
  | [] => None
  | (u, x) :: S' => if decide (u = v) then Some x else settled_lookup v S'
  end.

Definition is_settled (v : node) (S : settled) : bool :=
  bool_decide (is_Some (settled_lookup v S)).

(** Modelled from the spec: the relaxation step of the search. The entries
    pushed when [v] is settled at distance [d], one per neighbour that is
    not settled. *)
Definition relax (g : graph) (S : settled) (v : node) (d : Z) : list entry :=
  omap (λ uw : node * Z,
          if is_settled uw.1 S then None else Some (d + uw.2, uw.1, Some v))
       (map_to_list (adj g v)).

(** Modelled from the spec: the search loop. The least entry is popped; a
    node that is settled already is skipped, any other node is settled with
    the distance and the predecessor of the entry, and its edges are
    relaxed. The loop ends when the queue is empty. *)
Fixpoint dijkstra_loop (g : graph) (fuel : nat) (S : settled) (F : list entry)
  : settled :=
  match fuel with
  | O => S
  | Datatypes.S fuel' =>
      match pop_min F with
      | None => S
      | Some ((d, v, p), F') =>
          if is_settled v S then dijkstra_loop g fuel' S F'
          else
            let S' := (v, (d, p)) :: S in
            dijkstra_loop g fuel' S' (F' ++ relax g S' v d)
      end
  end.

(** Modelled from the spec: a bound on the turns of the search. One more
    than the number of adjacency entries: every entry is pushed at most once,
    after the source. *)
Definition search_bound (g : graph) : nat :=
  Datatypes.S (sum_list ((λ um : node * gmap string Z, size um.2)
                          <$> map_to_list g)).

(** Modelled from the spec: the single-source search from [source]. *)
Definition dijkstra (g : graph) (source : node) : settled :=
  dijkstra_loop g (search_bound g) [] [(0, source, None)].

(** Modelled from the spec: path reconstruction. Follows the predecessor
    links back from [v]; a predecessor was settled before its successor, so
    it is found further down the list. *)
Fixpoint path_to (S : settled) (v : node) : list node :=
  match S with
  | [] => []
  | (u, (_, p)) :: S' =>
      if decide (u = v) then
        match p with
        | None => [v]
        | Some q => path_to S' q ++ [v]
        end
      else path_to S' v
  end.

(** Modelled from the spec: [networkx.shortest_path_length] with a weight,
    the distance query of section 4.1. It fails with [NodeNotFound] when an
    endpoint is not a node and with [Unreachable] when the search from [a]
    never settles [b]. *)
Definition nx_shortest_path_length (g : graph) (a b : node) : result Z :=
  if negb (has_node g a) || negb (has_node g b) then Raise NodeNotFound
  else match settled_lookup b (dijkstra g a) with
       | Some (d, _) => Ok d
       | None => Raise Unreachable
       end.

(** Modelled from the spec: [networkx.shortest_path] with a weight, the
    path query of section 4.1, with the failures of the distance query. *)
Definition nx_shortest_path (g : graph) (a b : node) : result (list node) :=
  if negb (has_node g a) || negb (has_node g b) then Raise NodeNotFound
  else let S := dijkstra g a in
       if is_settled b S then Ok (path_to S b) else Raise Unreachable.

(** What [shortest_path_length] hands back: a distance or a path. *)
Inductive answer : Type :=
| Length (d : Z)
| Route (p : list node).

(** [shortest_path_length(network, a, b, distance)] *)
Definition shortest_path_length (network : graph) (a b : node) (distance : bool)
  : result answer :=
  if distance then d ← nx_shortest_path_length network a b; Ok (Length d)
  else p ← nx_shortest_path network a b; Ok (Route p).

Definition as_length (x : answer) : result Z :=
  match x with Length d => Ok d | Route _ => Raise TypeError end.

Definition as_route (x : answer) : result (list node) :=
  match x with Route p => Ok p | Length _ => Raise TypeError end.

(** ** Python list primitives *)

(** [l.remove(x)]: drops the first occurrence, [None] when there is none
    (Python raises ValueError). *)
Fixpoint list_remove (x : node) (l : list node) : option (list node) :=
  match l with
  | [] => None
  | y :: l' => if decide (y = x) then Some l' else (y ::.) <$> list_remove x l'
  end.

(** [l.index(x)]: position of the first occurrence. *)
Fixpoint list_index (x : string) (l : list string) : option nat :=
  match l with
  | [] => None
  | y :: l' =>
      if decide (y = x) then Some O else Datatypes.S <$> list_index x l'
  end.

(** [l[i:j]] for [0 <= i] and [0 <= j]. *)
Definition py_slice {A} (l : list A) (i j : nat) : list A :=
  take (j - i) (drop i l).

(** The index of the first occurrence of the least value of [l]. *)
Fixpoint argmin (l : list Z) : nat :=
  match l with
  | [] => O
  | x :: l' =>
      match l' with
      | [] => O
      | _ => let i := argmin l' in
             if x <=? nth i l' 0 then O else Datatypes.S i
      end
  end.

(** Modelled from the spec: [numpy.argmin], of the numpy library. The first
    index of the least value wins (section 4.2, step 2b); an empty sequence
    is refused. *)
Definition np_argmin (l : list Z) : result nat :=
  match l with
  | [] => Raise ValueError
  | _ :: _ => Ok (argmin l)
  end.

(** ** The tour builder *)

(** Computations over the caller's list object [homes]. *)
Definition M (A : Type) : Type := list node → result A * list node.

Definition ret {A} (a : A) : M A := λ h, (Ok a, h).
Definition raise {A} (e : exn) : M A := λ h, (Raise e, h).
Definition lift {A} (r : result A) : M A := λ h, (r, h).
Definition bind {A B} (m : M A) (k : A → M B) : M B := λ h,
  match m h with
  | (Ok a, h') => k a h'
  | (Raise e, h') => (Raise e, h')
  end.
Definition get_homes : M (list node) := λ h, (Ok h, h).

Notation "'do' x <- m ; k" := (bind m (λ x, k))
  (at level 10, x name, m at level 100, k at level 200).

(** [homes[i]] *)
Definition homes_at (i : nat) : M node := λ h,
  match h !! i with
  | Some x => (Ok x, h)
  | None => (Raise IndexError, h)
  end.

(** [homes.remove(x)] *)
Definition homes_remove (x : node) : M unit := λ h,
  match list_remove x h with
  | Some h' => (Ok (), h')
  | None => (Raise ValueError, h)
  end.

(** [homes.append(x)] *)
Definition homes_append (x : node) : M unit := λ h, (Ok (), h ++ [x]).

(** The local variables of [nearest_neighbor] that the loop updates. *)
Record locals : Type := Locals {
  curr_node : node;
  going_back : bool;
  dist_min : list Z;
  path_homes : list node;
  path_homes_full : list (list node)
}.

(** Lines 219-220: the distance from the current node to every pending
    stop, in list order. *)
Fixpoint all_distances (network : graph) (curr : node) (homes : list node)
  : result (list Z) :=
  match homes with
  | [] => Ok []
  | h :: rest =>
      x ← shortest_path_length network curr h true;
      d ← as_length x;
      ds ← all_distances network curr rest;
      Ok (d :: ds)
  end.

(** Lines 215-248: one turn of the while loop. *)
Definition nn_body (network : graph) (loc : locals) : M locals :=
  do homes <- get_homes;
  do all_dist <- lift (all_distances network (curr_node loc) homes);
  do min_index <- lift (np_argmin all_dist);
  do d <- (match all_dist !! min_index with
           | Some d => ret d
           | None => raise IndexError
           end);
  let dist_min' := dist_min loc ++ [d] in
  let path_homes' := path_homes loc ++ [curr_node loc] in
  do target <- homes_at min_index;
  do x <- lift (shortest_path_length network (curr_node loc) target false);
  do p <- lift (as_route x);
  let segment := if decide (length homes ≠ 1%nat) then removelast p else p in
  let path_homes_full' := path_homes_full loc ++ [segment] in
  do next <- homes_at min_index;
  do going_back' <-
    (if negb (going_back loc) && bool_decide (length homes = 1%nat)
     then do _ <- homes_append "Auckland Airport"; ret true
     else ret (going_back loc));
  do _ <- homes_remove next;
  ret (Locals next going_back' dist_min' path_homes' path_homes_full').

(** Line 212: [while not homes == []]. The loop needs at most one turn per
    pending stop and one for the way back, [fuel] bounds the turns. *)
Fixpoint nn_while (network : graph) (fuel : nat) (loc : locals) : M locals :=
  λ homes,
  match homes with
  | [] => (Ok loc, homes)
  | _ :: _ =>
      match fuel with
      | O => (Raise RecursionLimit, homes)
      | Datatypes.S fuel' =>
          match nn_body network loc homes with
          | (Ok loc', homes') => nn_while network fuel' loc' homes'
          | (Raise e, homes') => (Raise e, homes')
          end
      end
  end.

(** [nearest_neighbor(network, homes)]: the outcome, and the caller's list
    as the call leaves it. *)
Definition nearest_neighbor (network : graph)
  : M (list Z * list node * list (list node)) :=
  do curr <- homes_at 0;
  do _ <- homes_remove curr;
  let auk_airpot := curr in
  do pending <- get_homes;
  do loc <- nn_while network (Datatypes.S (length pending))
              (Locals curr false [] [] []);
  ret (dist_min loc, path_homes loc ++ [auk_airpot], path_homes_full loc).

(** ** What [solve_region] does with a tour *)

(** Line 289: the list of lists flattened. *)
Definition flat_region_path_full (region_path_full : list (list node))
  : list node :=
  concat region_path_full.

(** Line 297: [sum(region_dists)], of whole numbers; the order of the
    additions does not matter then. [Binary64.total_distance] is the sum of
    floats. *)
Definition total_distance (region_dists : list Z) : Z :=
  foldr Z.add 0 region_dists.

(** Stitching: the segments concatenated, a segment that starts with the
    node the walk so far ends with contributing that node once. *)
Definition join (acc seg : list node) : list node :=
  match seg with
  | [] => acc
  | x :: seg' => if decide (last acc = Some x) then acc ++ seg' else acc ++ seg
  end.

Definition stitch (segs : list (list node)) : list node :=
  foldl join [] segs.

(** ** Weights in binary64

    The networks that [read_network] loads carry their weights as Python
    floats. The definitions of this module are the graph store, the engine,
    the two queries and the tour builder once more, with binary64 numbers
    ([float]) where the definitions above have integers; every addition
    rounds to the nearest number. Weights are numbers, never NaN. *)

Module Binary64.

Abbreviation graph := (gmap string (gmap string float)).

Definition has_node (g : graph) (v : node) : bool :=
  bool_decide (is_Some (g !! v)).

Definition adj (g : graph) (v : node) : gmap string float :=
  default ∅ (g !! v).

Definition edge_weight (g : graph) (u v : node) : option float :=
  adj g u !! v.

Definition add_edge (u v : node) (w : float) (g : graph) : graph :=
  let g1 := <[u := <[v := w]> (adj g u)]> g in
  <[v := <[u := w]> (adj g1 v)]> g1.

(** [sum(l)]: the entries are added from the left, starting from 0. *)
Definition py_sum (l : list float) : float :=
  foldl PrimFloat.add 0%float l.

(** The weights of the consecutive edges of a node sequence, in order;
    [None] when two consecutive nodes are not joined by an edge. *)
Fixpoint edge_weights (g : graph) (p : list node) : option (list float) :=
  match p with
  | [] => Some []
  | u :: rest =>
      match rest with
      | [] => Some []
      | v :: _ =>
          match edge_weight g u v, edge_weights g rest with
          | Some w, Some ws => Some (w :: ws)
          | _, _ => None
          end
      end
  end.

(** The weights along a node sequence summed up edge by edge. *)
Definition path_weight (g : graph) (p : list node) : option float :=
  py_sum <$> edge_weights g p.

Definition entry : Type := float * node * option node.
Definition ekey (e : entry) : float := e.1.1.

(** Modelled from the spec: the priority queue of the search, as
    [pop_min] above. *)
Fixpoint pop_min (F : list entry) : option (entry * list entry) :=
  match F with
  | [] => None
  | e :: F' =>
      match pop_min F' with
      | None => Some (e, [])
      | Some (m, R) =>
          if PrimFloat.ltb (ekey m) (ekey e) then Some (m, e :: R)
          else Some (e, F')
      end
  end.

Definition settled : Type := list (node * (float * option node)).

Fixpoint settled_lookup (v : node) (S : settled)
  : option (float * option node) :=
  match S with
  | [] => None
  | (u, x) :: S' => if decide (u = v) then Some x else settled_lookup v S'
  end.

Definition is_settled (v : node) (S : settled) : bool :=
  bool_decide (is_Some (settled_lookup v S)).

(** Modelled from the spec: the relaxation step. The distance of a
    neighbour is the distance of [v] plus the weight of the edge, rounded. *)
Definition relax (g : graph) (S : settled) (v : node) (d : float)
  : list entry :=
  omap (λ uw : node * float,
          if is_settled uw.1 S then None
          else Some (PrimFloat.add d uw.2, uw.1, Some v))
       (map_to_list (adj g v)).

(** Modelled from the spec: the search loop. *)
Fixpoint dijkstra_loop (g : graph) (fuel : nat) (S : settled) (F : list entry)
  : settled :=
  match fuel with
  | O => S
  | Datatypes.S fuel' =>
      match pop_min F with
      | None => S
      | Some ((d, v, p), F') =>
          if is_settled v S then dijkstra_loop g fuel' S F'
          else
            let S' := (v, (d, p)) :: S in
            dijkstra_loop g fuel' S' (F' ++ relax g S' v d)
      end
  end.

Definition search_bound (g : graph) : nat :=
  Datatypes.S (sum_list ((λ um : node * gmap string float, size um.2)
                          <$> map_to_list g)).

(** Modelled from the spec: the single-source search from [source], whose
    own distance is 0. *)
Definition dijkstra (g : graph) (source : node) : settled :=
  dijkstra_loop g (search_bound g) [] [(0%float, source, None)].

(** Modelled from the spec: path reconstruction. *)
Fixpoint path_to (S : settled) (v : node) : list node :=
  match S with
  | [] => []
  | (u, (_, p)) :: S' =>
      if decide (u = v) then
        match p with
        | None => [v]
        | Some q => path_to S' q ++ [v]
        end
      else path_to S' v
  end.

(** Modelled from the spec: [networkx.shortest_path_length] with a
    weight. *)
Definition nx_shortest_path_length (g : graph) (a b : node) : result float :=
  if negb (has_node g a) || negb (has_node g b) then Raise NodeNotFound
  else match settled_lookup b (dijkstra g a) with
       | Some (d, _) => Ok d
       | None => Raise Unreachable
       end.

(** Modelled from the spec: [networkx.shortest_path] with a weight. *)
Definition nx_shortest_path (g : graph) (a b : node) : result (list node) :=
  if negb (has_node g a) || negb (has_node g b) then Raise NodeNotFound
  else let S := dijkstra g a in
       if is_settled b S then Ok (path_to S b) else Raise Unreachable.

Inductive answer : Type :=
| Length (d : float)
| Route (p : list node).

(** [shortest_path_length(network, a, b, distance)] *)
Definition shortest_path_length (network : graph) (a b : node) (distance : bool)
  : result answer :=
  if distance then d ← nx_shortest_path_length network a b; Ok (Length d)
  else p ← nx_shortest_path network a b; Ok (Route p).

Definition as_length (x : answer) : result float :=
  match x with Length d => Ok d | Route _ => Raise TypeError end.

Definition as_route (x : answer) : result (list node) :=
  match x with Route p => Ok p | Length _ => Raise TypeError end.

(** The index of the first occurrence of the least value of [l]. *)
Fixpoint argmin (l : list float) : nat :=
  match l with
  | [] => O
  | x :: l' =>
      match l' with
      | [] => O
      | _ => let i := argmin l' in
             if PrimFloat.leb x (nth i l' 0%float) then O else Datatypes.S i
      end
  end.

(** Modelled from the spec: [numpy.argmin]. *)
Definition np_argmin (l : list float) : result nat :=
  match l with
  | [] => Raise ValueError
  | _ :: _ => Ok (argmin l)
  end.

Record locals : Type := Locals {
  curr_node : node;
  going_back : bool;
  dist_min : list float;
  path_homes : list node;
  path_homes_full : list (list node)
}.

(** Lines 219-220 *)
Fixpoint all_distances (network : graph) (curr : node) (homes : list node)
  : result (list float) :=
  match homes with
  | [] => Ok []
  | h :: rest =>
      x ← shortest_path_length network curr h true;
      d ← as_length x;
      ds ← all_distances network curr rest;
      Ok (d :: ds)
  end.

(** Lines 215-248: one turn of the while loop. *)
Definition nn_body (network : graph) (loc : locals) : M locals :=
  do homes <- get_homes;
  do all_dist <- lift (all_distances network (curr_node loc) homes);
  do min_index <- lift (np_argmin all_dist);
  do d <- (match all_dist !! min_index with
           | Some d => ret d
           | None => raise IndexError
           end);
  let dist_min' := dist_min loc ++ [d] in
  let path_homes' := path_homes loc ++ [curr_node loc] in
  do target <- homes_at min_index;
  do x <- lift (shortest_path_length network (curr_node loc) target false);
  do p <- lift (as_route x);
  let segment := if decide (length homes ≠ 1%nat) then removelast p else p in
  let path_homes_full' := path_homes_full loc ++ [segment] in
  do next <- homes_at min_index;
  do going_back' <-
    (if negb (going_back loc) && bool_decide (length homes = 1%nat)
     then do _ <- homes_append "Auckland Airport"; ret true
     else ret (going_back loc));
  do _ <- homes_remove next;
  ret (Locals next going_back' dist_min' path_homes' path_homes_full').

(** Line 212: [while not homes == []]. *)
Fixpoint nn_while (network : graph) (fuel : nat) (loc : locals) : M locals :=
  λ homes,
  match homes with
  | [] => (Ok loc, homes)
  | _ :: _ =>
      match fuel with
      | O => (Raise RecursionLimit, homes)
      | Datatypes.S fuel' =>
          match nn_body network loc homes with
          | (Ok loc', homes') => nn_while network fuel' loc' homes'
          | (Raise e, homes') => (Raise e, homes')
          end
      end
  end.

(** [nearest_neighbor(network, homes)] *)
Definition nearest_neighbor (network : graph)
  : M (list float * list node * list (list node)) :=
  do curr <- homes_at 0;
  do _ <- homes_remove curr;
  let auk_airpot := curr in
  do pending <- get_homes;
  do loc <- nn_while network (Datatypes.S (length pending))
              (Locals curr false [] [] []);
  ret (dist_min loc, path_homes loc ++ [auk_airpot], path_homes_full loc).

(** Line 297: [sum(region_dists)]. *)
Definition total_distance (region_dists : list float) : float :=
  py_sum region_dists.

End Binary64.

(** ** The region slices of [main] *)

(** Lines 333-350, for one label [search]: [data] are the rows of the table
    (house, suburb, region). A label that does not occur makes [list.index]
    raise. *)
Definition region_stops (data : list (string * string * string))
    (search : string) : result (list node) :=
  let region := (λ row, row.2) <$> data in
  let rest_homes := (λ row, row.1.1) <$> data in
  let auk_airport := ["Auckland Airport"] in
  let n := length region in
  match list_index search region with
  | None => Raise ValueError
  | Some i =>
      match list_index search (reverse region) with
      | None => Raise ValueError
      | Some k => Ok (auk_airport ++ py_slice rest_homes i (n - k))
      end
  end.

(** The labels of the four regions that [main] slices out. *)
Definition region_names : list string :=
  ["Auckland Isthmus"; "North Shore"; "South Auckland"; "West Auckland"].

(** Lines 336-350 of [main]: the stop lists of the four regions, computed
    in this order; the first label that is missing stops the run. *)
Definition main_regions (data : list (string * string * string))
  : result (list node * list node * list node * list node) :=
  AI ← region_stops data "Auckland Isthmus";
  NS ← region_stops data "North Shore";
  SA ← region_stops data "South Auckland";
  WA ← region_stops data "West Auckland";
  Ok (AI, NS, SA, WA).

(** The rows from the first to the last row that carries [search]. *)
Definition spans (data : list (string * string * string)) (search : string)
    (before block after : list (string * string * string)) : Prop :=
  data = before ++ block ++ after ∧
  (∃ row, head block = Some row ∧ row.2 = search) ∧
  (∃ row, last block = Some row ∧ row.2 = search) ∧
  Forall (λ row, row.2 ≠ search) before ∧
  Forall (λ row, row.2 ≠ search) after.

(** The rows that carry the label [L] form one block of the table, which is
    not empty. *)
Definition grouped (data : list (string * string * string)) (L : string)
  : Prop :=
  ∃ before block after,
    data = before ++ block ++ after ∧ block ≠ [] ∧
    Forall (λ row, row.2 = L) block ∧
    Forall (λ row, row.2 ≠ L) before ∧
    Forall (λ row, row.2 ≠ L) after.

(** ** Text files *)

(** The files of the working directory: path and text, one path for a
    file. A text is a sequence of characters below 256. *)
Abbreviation files := (gmap string string).

Definition newline : ascii := "010"%char.
Definition carriage_return : ascii := "013"%char.

(** [str.isspace] for one character below 256. *)
Definition is_space (c : ascii) : bool :=
  let n := nat_of_ascii c in
  ((9 <=? n) && (n <=? 13) || (28 <=? n) && (n <=? 32)
   || (n =? 133) || (n =? 160))%nat.

(** [s.lstrip()], [s.rstrip()] and [s.strip()] *)
Fixpoint lstrip (s : string) : string :=
  match s with
  | EmptyString => EmptyString
  | String c s' => if is_space c then lstrip s' else s
  end.

Fixpoint rstrip (s : string) : string :=
  match s with
  | EmptyString => EmptyString
  | String c s' =>
      match rstrip s' with
      | EmptyString => if is_space c then EmptyString else String c EmptyString
      | r => String c r
      end
  end.

Definition strip (s : string) : string := lstrip (rstrip s).

(** [f.readline()] on a file opened for reading in text mode, [f] being the
    text not read yet: the next line with its end, and what is left. A line
    ends with a newline, a carriage return or both, handed over as one
    newline; at the end of the file the line is empty. *)
Fixpoint readline (f : string) : string * string :=
  match f with
  | EmptyString => (EmptyString, EmptyString)
  | String c f' =>
      if decide (c = newline) then (String newline EmptyString, f')
      else if decide (c = carriage_return) then
        (String newline EmptyString,
         match f' with
         | String c' f'' => if decide (c' = newline) then f'' else f'
         | EmptyString => f'
         end)
      else let '(line, rest) := readline f' in (String c line, rest)
  end.

(** Lines 97-98 of [save_data]: [f.write(str(p) + '\n')] for every entry,
    [f] being the text written so far. The entries are strings, [str]
    leaves them as they are. *)
Fixpoint write_entries (f : string) (data : list string) : string :=
  match data with
  | [] => f
  | p :: rest =>
      write_entries (f +:+ (p +:+ String newline EmptyString)) rest
  end.

(** [save_data(name, data)]: the file is created or replaced; the
    directory can be written to. *)
Definition save_data (name : string) (data : list string) (fs : files)
  : files :=
  <[name +:+ ".txt" := write_entries EmptyString data]> fs.

(** What opening a file for reading gives. *)
Inductive opened (A : Type) : Type :=
| Read (a : A)
| FileNotFoundError.
Arguments Read {A} a.
Arguments FileNotFoundError {A}.

(** Lines 126-128 of [load_data]: the loop reads a line, strips it and
    appends it, until the stripped line is empty. Every turn but the last
    consumes a character, [fuel] bounds the turns. *)
Fixpoint load_loop (fuel : nat) (f : string) (data : list string)
  : list string :=
  match fuel with
  | O => data
  | Datatypes.S fuel' =>
      let '(line, f') := readline f in
      let ln := strip line in
      let data' := data ++ [ln] in
      if decide (ln = EmptyString) then data' else load_loop fuel' f' data'
  end.

(** [load_data(name)] *)
Definition load_data (name : string) (fs : files) : opened (list string) :=
  match fs !! (name +:+ ".txt") with
  | None => FileNotFoundError
  | Some text => Read (load_loop (Datatypes.S (String.length text)) text [])
  end.

(** [for line in fp]: the lines of the file, each with its end. *)
Fixpoint file_lines (fuel : nat) (f : string) : list string :=
  match fuel with
  | O => []
  | Datatypes.S fuel' =>
      let '(line, f') := readline f in
      if decide (line = EmptyString) then [] else line :: file_lines fuel' f'
  end.

(** [get_rest_homes(filename)] *)
Definition get_rest_homes (filename : string) (fs : files)
  : opened (list string) :=
  match fs !! filename with
  | None => FileNotFoundError
  | Some text => Read (strip <$> file_lines (String.length text) text)
  end.

(** No newline and no carriage return in [s]. *)
Fixpoint one_line (s : string) : bool :=
  match s with
  | EmptyString => true
  | String c s' =>
      negb (bool_decide (c = newline))
      && negb (bool_decide (c = carriage_return)) && one_line s'
  end.

(** All characters of [s] are white space. *)
Fixpoint blank (s : string) : bool :=
  match s with
  | EmptyString => true
  | String c s' => is_space c && blank s'
  end.

(** The text that [save_data] leaves for [data]. *)
Fixpoint text_of (data : list string) : string :=
  match data with
  | [] => EmptyString
  | p :: rest => p +:+ String newline (text_of rest)
  end.

(** ** Invariants of the search *)

(** The cumulative weights of the walks that leave [s]. *)
Inductive walk_to (g : graph) (s : node) : node → Z → Prop :=
| walk_here : walk_to g s s 0
| walk_step u v d w :
    walk_to g s u d → edge_weight g u v = Some w → walk_to g s v (d + w).

(** The predecessor link of a node: the source has none, any other node is
    one edge after a node settled before it. *)
Definition link_ok (g : graph) (s : node) (S : settled)
    (v : node) (d : Z) (p : option node) : Prop :=
  match p with
  | None => v = s ∧ d = 0
  | Some q => ∃ dq pq w, settled_lookup q S = Some (dq, pq) ∧
                         edge_weight g q v = Some w ∧ d = dq + w
  end.

(** Every settled node was new when it was settled and has a good link. *)
Fixpoint sound (g : graph) (s : node) (S : settled) : Prop :=
  match S with
  | [] => True
  | (v, (d, p)) :: S' =>
      sound g s S' ∧ settled_lookup v S' = None ∧ link_ok g s S' v d p
  end.

(** Every queued entry has a good link. *)
Definition fringe_ok (g : graph) (s : node) (S : settled) (F : list entry)
  : Prop :=
  Forall (λ e, link_ok g s S (enode e) (ekey e) (epred e)) F.

(** The source is settled or queued, and so is every neighbour of a settled
    node, with the distance through that node. *)
Definition closed (g : graph) (s : node) (S : settled) (F : list entry)
  : Prop :=
  (is_settled s S = true ∨ (0, s, None) ∈ F) ∧
  ∀ u du pu v w,
    settled_lookup u S = Some (du, pu) → edge_weight g u v = Some w →
    is_settled v S = true ∨ (du + w, v, Some u) ∈ F.

(** No walk beats a settled distance. *)
Definition optimal (g : graph) (s : node) (S : settled) : Prop :=
  ∀ v d p, settled_lookup v S = Some (d, p) →
           ∀ d', walk_to g s v d' → d ≤ d'.

(** What is left to do: the queued entries and the adjacency entries of the
    nodes not settled yet. *)
Definition unsettled_degree (S : settled) (um : node * gmap string Z) : nat :=
  if is_settled um.1 S then O else size um.2.

Definition pending_work (g : graph) (S : settled) (F : list entry) : nat :=
  (length F + sum_list (unsettled_degree S <$> map_to_list g))%nat.

(** [nonneg_weights] as a proposition. *)
Definition nonneg (g : graph) : Prop :=
  ∀ u v w, edge_weight g u v = Some w → 0 ≤ w.

(** A pending stop that the current node cannot be routed to. *)
Definition off_network (g : graph) (curr x : node) : Prop :=
  has_node g curr = false ∨ has_node g x = false ∨ ¬ reachable g curr x.

(** ** Invariants of the tour loop *)

(** While the loop runs, the stops logged, the current node and the pending
    stops are together the entries of the list, with the scheduled way
    back; the logs grow in step and the depot is logged first. *)
Definition tour_invariant (depot : node) (rest : list node)
    (loc : locals) (homes : list node) : Prop :=
  path_homes loc ++ curr_node loc :: homes
  ≡ₚ depot :: rest
     ++ (if going_back loc then ["Auckland Airport"] else []) ∧
  head (path_homes loc ++ [curr_node loc]) = Some depot ∧
  length (dist_min loc) = length (path_homes loc) ∧
  length (path_homes_full loc) = length (path_homes loc) ∧
  (going_back loc = true → (length homes ≤ 1)%nat) ∧
  (going_back loc = false → rest ≠ [] → homes ≠ []).

(** The legs logged so far join consecutive entries of the stops logged so
    far followed by the current node; [k] is the number of stops after the
    depot. *)
Definition legs_invariant (network : graph) (k : nat) (loc : locals) : Prop :=
  ∀ i d, dist_min loc !! i = Some d →
    ∃ a b p,
      (path_homes loc ++ [curr_node loc]) !! i = Some a ∧
      (path_homes loc ++ [curr_node loc]) !! Datatypes.S i = Some b ∧
      shortest_path_length network a b true = Ok (Length d) ∧
      shortest_path_length network a b false = Ok (Route p) ∧
      path_homes_full loc !! i
      = Some (if decide (i + 2 ≤ k)%nat then removelast p else p).

(** The stitched segments, closed with the current node, start at the
    depot and weigh the distances logged; after a turn that empties the
    pending list they end with the current node. *)
Definition stitch_invariant (network : graph) (depot : node)
    (loc : locals) (homes : list node) : Prop :=
  path_weight network (join (stitch (path_homes_full loc)) [curr_node loc])
  = Some (total_distance (dist_min loc)) ∧
  head (join (stitch (path_homes_full loc)) [curr_node loc]) = Some depot ∧
  (homes = [] → path_homes_full loc ≠ [] →
   last (stitch (path_homes_full loc)) = Some (curr_node loc)).

(** Consecutive nodes are joined by an edge, or are the same node. *)
Fixpoint along_roads (g : graph) (p : list node) : bool :=
  match p with
  | [] => true
  | a :: r =>
      match r with
      | [] => true
      | b :: _ =>
          (bool_decide (a = b) || bool_decide (is_Some (edge_weight g a b)))
          && along_roads g r
      end
  end.

(** The flattened segments, with the current node after them, start at the
    depot and keep to the roads. *)
Definition plot_invariant (network : graph) (depot : node) (loc : locals)
  : Prop :=
  along_roads network (concat (path_homes_full loc) ++ [curr_node loc])
  = true ∧
  head (concat (path_homes_full loc) ++ [curr_node loc]) = Some depot.

(** Nodes of the network that are pairwise joined by walks. *)
Definition connected_stops (g : graph) (K : list node) : Prop :=
  ∀ a b, a ∈ K → b ∈ K → has_node g a = true ∧ reachable g a b.

(** ** Sample networks and inputs *)

(** The scenario of section 8 with the depot named Auckland Airport: roads
    depot-A of weight 5, depot-B of weight 9 and A-B of weight 3, and a
    fourth node C that no road reaches. *)
Definition G4 : graph :=
  add_edge "A" "B" 3 (add_edge "Auckland Airport" "B" 9
    (add_edge "Auckland Airport" "A" 5 (add_node "C" ∅))).

(** The same scenario with a depot named D. *)
Definition G4D : graph :=
  add_edge "A" "B" 3 (add_edge "D" "B" 9
    (add_edge "D" "A" 5 (add_node "C" ∅))).

(** A depot that is not called Auckland Airport, in a network that also
    holds a node of that name. *)
Definition G3 : graph :=
  add_edge "A" "Auckland Airport" 2 (add_edge "D" "A" 5 ∅).

(** Two nodes joined by one road. *)
Definition G2 : graph := add_edge "Auckland Airport" "A" 5 ∅.

(** What the tour builder returns on [G4] for the list depot, A, B. *)
Definition scenario_out : list Z * list node * list (list node) :=
  ([5; 3; 8], ["Auckland Airport"; "A"; "B"; "Auckland Airport"],
   [["Auckland Airport"]; ["A"; "B"]; ["B"; "A"; "Auckland Airport"]]).


(** A table of five houses, grouped by region. *)
Definition sample_table : list (string * string * string) :=
  [("h1", "Epsom", "Auckland Isthmus"); ("h2", "Albany", "North Shore");
   ("h3", "Takapuna", "North Shore"); ("h4", "Manukau", "South Auckland");
   ("h5", "Henderson", "West Auckland")].

(** A table in which a South Auckland row lies between the two North Shore
    rows. *)
Definition mixed_table : list (string * string * string) :=
  [("h1", "Epsom", "Auckland Isthmus"); ("h2", "Albany", "North Shore");
   ("h3", "Manukau", "South Auckland"); ("h4", "Takapuna", "North Shore");
   ("h5", "Henderson", "West Auckland")].

(** Entries to save: one with white space around it, one that is empty. *)
Definition sample_entries : list string :=
  ["Auckland Airport"; " A "; ""; "B"].

(** * Properties *)

(** ** The priority queue *)

Lemma pop_min_None (F : list entry) : pop_min F = None → F = [].
Proof.
  destruct F as [|e F]; [done|]. simpl.
  destruct (pop_min F) as [[m R]|]; [|done].
  by destruct (ekey m <? ekey e).
Qed.

Lemma pop_min_Some (F : list entry) m R :
  pop_min F = Some (m, R) →
  F ≡ₚ m :: R ∧ Forall (λ e, ekey m ≤ ekey e) F.
Proof.
  revert m R. induction F as [|e F IH]; intros m R H; [done|].
  simpl in H. destruct (pop_min F) as [[m' R']|] eqn:E.
  - destruct (IH m' R' eq_refl) as [Hperm Hmin].
    destruct (Z.ltb_spec (ekey m') (ekey e)) as [Hlt|Hge];
      inversion H; subst; clear H.
    + split.
      * rewrite Hperm. apply perm_swap.
      * constructor; [lia|done].
    + split; [done|]. constructor; [lia|].
      eapply Forall_impl; [exact Hmin|]. simpl. intros; lia.
  - apply pop_min_None in E. subst F. inversion H; subst.
    split; [done|]. constructor; [lia|constructor].
Qed.

Lemma pop_min_length (F : list entry) m R :
  pop_min F = Some (m, R) → length F = Datatypes.S (length R).
Proof.
  intros H. apply pop_min_Some in H as [H _]. by rewrite H.
Qed.

(** ** Settled nodes *)

Lemma is_settled_true v S :
  is_settled v S = true ↔ is_Some (settled_lookup v S).
Proof. unfold is_settled. by rewrite bool_decide_eq_true. Qed.

Lemma is_settled_false v S :
  is_settled v S = false ↔ settled_lookup v S = None.
Proof.
  unfold is_settled. rewrite bool_decide_eq_false.
  by rewrite eq_None_not_Some.
Qed.

Lemma settled_lookup_cons_ne u x v S :
  u ≠ v → settled_lookup v ((u, x) :: S) = settled_lookup v S.
Proof. intros H. simpl. by rewrite decide_False. Qed.

Lemma settled_lookup_cons_eq v x S :
  settled_lookup v ((v, x) :: S) = Some x.
Proof. simpl. by rewrite decide_True. Qed.

Lemma settled_lookup_weaken u x v y S :
  settled_lookup u S = None →
  settled_lookup v S = Some y →
  settled_lookup v ((u, x) :: S) = Some y.
Proof.
  intros Hu Hv. rewrite settled_lookup_cons_ne; [done|]. congruence.
Qed.

(** ** The search keeps its invariants *)

Section Search.

Variable g : graph.
Variable s : node.

Lemma link_ok_weaken S u x v d p :
  settled_lookup u S = None →
  link_ok g s S v d p → link_ok g s ((u, x) :: S) v d p.
Proof.
  intros Hu. destruct p as [q|]; simpl; [|done].
  intros (dq & pq & w & Hq & Hw & ->).
  exists dq, pq, w. split; [|done].
  rewrite decide_False; [done|]. congruence.
Qed.

Lemma path_weight_snoc P q v d w :
  last P = Some q → path_weight g P = Some d →
  edge_weight g q v = Some w →
  path_weight g (P ++ [v]) = Some (d + w).
Proof.
  revert d. induction P as [|a P IH]; intros d Hlast Hd Hw; [done|].
  destruct P as [|b P].
  - simpl in *. inversion Hlast; subst. inversion Hd; subst.
    rewrite Hw. f_equal. lia.
  - change (path_weight g (a :: b :: P)) with
      (match edge_weight g a b, path_weight g (b :: P) with
       | Some w, Some r => Some (w + r)
       | _, _ => None
       end) in Hd.
    change (path_weight g ((a :: b :: P) ++ [v])) with
      (match edge_weight g a b, path_weight g ((b :: P) ++ [v]) with
       | Some w, Some r => Some (w + r)
       | _, _ => None
       end).
    destruct (edge_weight g a b) as [w1|]; [|done].
    destruct (path_weight g (b :: P)) as [r|] eqn:Er; [|done].
    inversion Hd; subst. rewrite (IH r); [f_equal; lia|done..].
Qed.

Lemma sound_path S v d p :
  sound g s S → settled_lookup v S = Some (d, p) →
  head (path_to S v) = Some s ∧ last (path_to S v) = Some v ∧
  path_weight g (path_to S v) = Some d ∧
  last (removelast (path_to S v)) ≠ Some v.
Proof.
  revert v d p. induction S as [|[u [du pu]] S IH]; intros v d p Hs Hv;
    [done|].
  destruct Hs as (Hs & Hu & Hlink). simpl in Hv |- *.
  destruct (decide (u = v)) as [->|Hne].
  - inversion Hv; subst. destruct p as [q|]; simpl in Hlink.
    + destruct Hlink as (dq & pq & w & Hq & Hw & ->).
      destruct (IH q dq pq Hs Hq) as (Hhead & Hlast & Hwt & _).
      split; [|split; [|split]].
      * destruct (path_to S q); [done|done].
      * by rewrite last_snoc.
      * by eapply path_weight_snoc.
      * rewrite removelast_last, Hlast. congruence.
    + destruct Hlink as [-> ->]. done.
  - by eapply IH.
Qed.

Lemma walk_of_path P : ∀ u t d0 d,
  walk_to g s u d0 → head P = Some u → last P = Some t →
  path_weight g P = Some d → walk_to g s t (d0 + d).
Proof.
  induction P as [|a P IH]; intros u t d0 d Hu Hhead Hlast Hd; [done|].
  simpl in Hhead. inversion Hhead; subst a.
  destruct P as [|b P].
  - simpl in *. inversion Hlast; inversion Hd; subst.
    by rewrite Z.add_0_r.
  - change (path_weight g (u :: b :: P)) with
      (match edge_weight g u b, path_weight g (b :: P) with
       | Some w, Some r => Some (w + r)
       | _, _ => None
       end) in Hd.
    destruct (edge_weight g u b) as [w|] eqn:Ew; [|done].
    destruct (path_weight g (b :: P)) as [r|] eqn:Er; [|done].
    inversion Hd; subst. rewrite Z.add_assoc.
    eapply (IH b); [|done|done|done].
    by eapply walk_step.
Qed.

Lemma is_settled_cons u x v S :
  is_settled v ((u, x) :: S) = true ↔ u = v ∨ is_settled v S = true.
Proof.
  rewrite !is_settled_true. simpl. destruct (decide (u = v)).
  - split; [by left|]. intros _. by eexists.
  - split; [by right|]. by intros [?|?].
Qed.

Lemma relax_elem S v d e :
  e ∈ relax g S v d ↔
  ∃ u w, edge_weight g v u = Some w ∧ is_settled u S = false ∧
         e = (d + w, u, Some v).
Proof.
  unfold relax. rewrite list_elem_of_omap. split.
  - intros ([u w] & Hin & He). apply elem_of_map_to_list in Hin.
    simpl in He. destruct (is_settled u S) eqn:Eu; [done|].
    inversion He; subst. by exists u, w.
  - intros (u & w & Hw & Hu & ->). exists (u, w). split.
    + by apply elem_of_map_to_list.
    + simpl. by rewrite Hu.
Qed.

Lemma relax_length S v d :
  (length (relax g S v d) ≤ size (adj g v))%nat.
Proof.
  unfold relax. rewrite <- length_map_to_list.
  generalize (map_to_list (adj g v)). intros l.
  induction l as [|a l IH]; csimpl; [lia|].
  destruct (is_settled a.1 S); csimpl; lia.
Qed.

Section Step.

Variables (S : settled) (F F' : list entry).
Variables (d : Z) (v : node) (p : option node).
Hypothesis Hpop : pop_min F = Some ((d, v, p), F').

Let S' : settled := (v, (d, p)) :: S.

Lemma popped_in e : e ∈ F ↔ e = (d, v, p) ∨ e ∈ F'.
Proof.
  destruct (pop_min_Some _ _ _ Hpop) as [Hperm _].
  rewrite Hperm. apply elem_of_cons.
Qed.

Lemma skip_fringe : fringe_ok g s S F → fringe_ok g s S F'.
Proof.
  unfold fringe_ok. rewrite !Forall_forall. intros H e He.
  apply H, popped_in. by right.
Qed.

Lemma skip_closed :
  closed g s S F → is_settled v S = true → closed g s S F'.
Proof.
  intros [Hsrc Hedge] Hv. split.
  - destruct Hsrc as [?|Hin]; [by left|].
    apply popped_in in Hin as [Heq|?]; [|by right].
    inversion Heq; subst. by left.
  - intros u du pu x w Hu Hw.
    destruct (Hedge u du pu x w Hu Hw) as [?|Hin]; [by left|].
    apply popped_in in Hin as [Heq|?]; [|by right].
    inversion Heq; subst. by left.
Qed.

Lemma settle_sound :
  sound g s S → fringe_ok g s S F → is_settled v S = false →
  sound g s S' ∧ fringe_ok g s S' (F' ++ relax g S' v d).
Proof.
  intros Hs Hf Hv. apply is_settled_false in Hv.
  unfold fringe_ok in *. rewrite Forall_forall in Hf. split.
  - simpl. split; [done|]. split; [done|].
    apply (Hf (d, v, p)), popped_in. by left.
  - rewrite Forall_forall. intros e He.
    apply elem_of_app in He as [He|He].
    + apply link_ok_weaken; [done|]. apply Hf, popped_in. by right.
    + apply relax_elem in He as (u & w & Hw & _ & ->). simpl.
      exists d, p, w. split; [|done].
      apply settled_lookup_cons_eq.
Qed.

Lemma settle_closed :
  closed g s S F → is_settled v S = false →
  closed g s S' (F' ++ relax g S' v d).
Proof.
  intros [Hsrc Hedge] Hv. split.
  - destruct Hsrc as [Hs|Hin].
    + left. apply is_settled_cons. by right.
    + apply popped_in in Hin as [Heq|?].
      * inversion Heq; subst. left. apply is_settled_cons. by left.
      * right. apply elem_of_app. by left.
  - intros u du pu x w Hu Hw. unfold S' in Hu. simpl in Hu.
    destruct (decide (v = u)) as [<-|Hne].
    + injection Hu as <- <-.
      destruct (is_settled x S') eqn:Ex; [by left|].
      right. apply elem_of_app. right. apply relax_elem.
      by exists x, w.
    + destruct (Hedge u du pu x w Hu Hw) as [Hx|Hin].
      * left. apply is_settled_cons. by right.
      * apply popped_in in Hin as [Heq|?].
        -- inversion Heq; subst. left. apply is_settled_cons. by left.
        -- right. apply elem_of_app. by left.
Qed.

Lemma frontier_bound :
  nonneg g → optimal g s S → closed g s S F →
  ∀ x d', walk_to g s x d' → is_settled x S = false → d ≤ d'.
Proof.
  intros Hnn Hopt [Hsrc Hedge].
  destruct (pop_min_Some _ _ _ Hpop) as [_ Hmin].
  rewrite Forall_forall in Hmin.
  induction 1 as [|u x d' w Hwalk IH Hw]; intros Hx.
  - destruct Hsrc as [Hs|Hin]; [congruence|].
    exact (Hmin _ Hin).
  - specialize (Hnn _ _ _ Hw).
    destruct (settled_lookup u S) as [[du pu]|] eqn:Eu.
    + specialize (Hopt u du pu Eu d' Hwalk).
      destruct (Hedge u du pu x w Eu Hw) as [?|Hin]; [congruence|].
      specialize (Hmin _ Hin). unfold ekey in Hmin. simpl in Hmin. lia.
    + apply is_settled_false in Eu. specialize (IH Eu). lia.
Qed.

Lemma settle_optimal :
  nonneg g → optimal g s S → closed g s S F →
  is_settled v S = false → optimal g s S'.
Proof.
  intros Hnn Hopt Hcl Hv x dx px Hx d' Hwalk.
  unfold S' in Hx. simpl in Hx.
  destruct (decide (v = x)) as [<-|Hne].
  - injection Hx as <- <-. by eapply frontier_bound.
  - by eapply Hopt.
Qed.

Lemma unsettled_degree_mono um :
  (unsettled_degree S' um ≤ unsettled_degree S um)%nat.
Proof.
  unfold unsettled_degree.
  destruct (is_settled um.1 S') eqn:E'; [lia|].
  destruct (is_settled um.1 S) eqn:E; [|lia].
  assert (is_settled um.1 S' = true); [|congruence].
  apply is_settled_cons. by right.
Qed.

Lemma unsettled_sum_mono (l : list (node * gmap string Z)) :
  (sum_list (unsettled_degree S' <$> l)
   ≤ sum_list (unsettled_degree S <$> l))%nat.
Proof.
  induction l as [|um l IH]; csimpl; [lia|].
  pose proof (unsettled_degree_mono um). lia.
Qed.

Lemma unsettled_sum_drop (l : list (node * gmap string Z)) m :
  is_settled v S = false → (v, m) ∈ l →
  (sum_list (unsettled_degree S' <$> l) + size m
   ≤ sum_list (unsettled_degree S <$> l))%nat.
Proof.
  intros Hv. induction l as [|um l IH]; intros Hin; csimpl.
  { by apply elem_of_nil in Hin. }
  apply elem_of_cons in Hin as [<-|Hin].
  - pose proof (unsettled_sum_mono l).
    unfold unsettled_degree at 1 3. simpl. rewrite Hv.
    replace (is_settled v S') with true; [lia|].
    symmetry. apply is_settled_cons. by left.
  - pose proof (unsettled_degree_mono um). specialize (IH Hin). lia.
Qed.

Lemma skip_work : (pending_work g S F' < pending_work g S F)%nat.
Proof.
  unfold pending_work. rewrite (pop_min_length _ _ _ Hpop). lia.
Qed.

Lemma settle_work :
  is_settled v S = false →
  (pending_work g S' (F' ++ relax g S' v d) < pending_work g S F)%nat.
Proof.
  intros Hv. unfold pending_work.
  rewrite (pop_min_length _ _ _ Hpop), length_app.
  pose proof (relax_length S' v d) as Hlen.
  assert (sum_list (unsettled_degree S' <$> map_to_list g)
          + size (adj g v)
          ≤ sum_list (unsettled_degree S <$> map_to_list g))%nat; [|lia].
  unfold adj. destruct (g !! v) as [m|] eqn:Em; simpl.
  - apply unsettled_sum_drop; [done|]. by apply elem_of_map_to_list.
  - rewrite map_size_empty. pose proof (unsettled_sum_mono (map_to_list g)).
    lia.
Qed.

End Step.

Lemma dijkstra_loop_inv fuel : ∀ S F,
  sound g s S → fringe_ok g s S F → closed g s S F →
  (pending_work g S F ≤ fuel)%nat →
  sound g s (dijkstra_loop g fuel S F) ∧
  closed g s (dijkstra_loop g fuel S F) [] ∧
  (nonneg g → optimal g s S → optimal g s (dijkstra_loop g fuel S F)).
Proof.
  induction fuel as [|fuel IH]; intros S F Hs Hf Hc Hwork.
  - simpl. destruct F as [|e F]; [done|].
    unfold pending_work in Hwork. simpl in Hwork. lia.
  - simpl. destruct (pop_min F) as [[[[d v] p] F']|] eqn:Hpop.
    + destruct (is_settled v S) eqn:Hv.
      * apply IH.
        -- done.
        -- by eapply skip_fringe.
        -- by eapply skip_closed.
        -- pose proof (skip_work S _ _ _ _ _ Hpop). lia.
      * destruct (settle_sound _ _ _ _ _ _ Hpop Hs Hf Hv) as [Hs' Hf'].
        pose proof (settle_closed _ _ _ _ _ _ Hpop Hc Hv) as Hc'.
        pose proof (settle_work S _ _ _ _ _ Hpop Hv) as Hw'.
        destruct (IH _ _ Hs' Hf' Hc') as (H1 & H2 & H3); [lia|].
        split; [done|]. split; [done|].
        intros Hnn Hopt. apply H3; [done|].
        by eapply settle_optimal.
    + apply pop_min_None in Hpop. subst F. done.
Qed.

End Search.

(** ** The search as a whole *)

Lemma dijkstra_inv g s :
  sound g s (dijkstra g s) ∧ closed g s (dijkstra g s) [] ∧
  (nonneg g → optimal g s (dijkstra g s)).
Proof.
  destruct (dijkstra_loop_inv g s (search_bound g) [] [(0, s, None)])
    as (H1 & H2 & H3).
  - done.
  - by repeat constructor.
  - split; [right; by left|]. by intros u du pu v w Hu.
  - unfold pending_work, search_bound. simpl. apply le_n_S.
    apply Nat.eq_le_incl. f_equal.
  - split; [done|]. split; [done|]. intros Hnn. apply H3; [done|].
    by intros v d p Hv.
Qed.

Lemma closed_complete g s R :
  closed g s R [] → ∀ t d, walk_to g s t d → is_settled t R = true.
Proof.
  intros [Hsrc Hedge]. induction 1 as [|u v d w _ IH Hw].
  - destruct Hsrc as [?|Hin]; [done|]. by apply elem_of_nil in Hin.
  - apply is_settled_true in IH as [[du pu] Hu].
    destruct (Hedge u du pu v w Hu Hw) as [?|Hin]; [done|].
    by apply elem_of_nil in Hin.
Qed.

Lemma nonneg_weights_spec g : nonneg_weights g = true → nonneg g.
Proof.
  unfold nonneg_weights, nonneg, edge_weight, adj.
  rewrite forallb_forall. intros H u v w Hw.
  destruct (g !! u) as [m|] eqn:Em; simpl in Hw; [|done].
  specialize (H (u, m)). simpl in H. rewrite forallb_forall in H.
  assert (Hin : In (v, w) (map_to_list m)).
  { apply list_elem_of_In. by apply elem_of_map_to_list. }
  apply H in Hin.
  - simpl in Hin. by apply bool_decide_eq_true in Hin.
  - apply list_elem_of_In. by apply elem_of_map_to_list.
Qed.

Lemma reachable_walk g s t : reachable g s t → ∃ d, walk_to g s t d.
Proof.
  intros (P & Hhead & Hlast & [d Hd]). exists (0 + d).
  eapply walk_of_path; [constructor|done..].
Qed.

Lemma walk_nonneg g s t d : nonneg g → walk_to g s t d → 0 ≤ d.
Proof.
  intros Hnn. induction 1 as [|u v d w _ IH Hw]; [done|].
  specialize (Hnn _ _ _ Hw). lia.
Qed.

Lemma search_decides_reachable g a b :
  reachable g a b ↔ is_settled b (dijkstra g a) = true.
Proof.
  destruct (dijkstra_inv g a) as (Hs & Hc & _). split.
  - intros Hr. destruct (reachable_walk _ _ _ Hr) as [d Hd].
    by eapply closed_complete.
  - intros Hb. apply is_settled_true in Hb as [[d p] Hb].
    destruct (sound_path g a _ _ _ _ Hs Hb) as (? & ? & ? & _).
    exists (path_to (dijkstra g a) b). by repeat split.
Qed.

(** ** The two queries *)

Lemma nx_queries_agree g a b d :
  nx_shortest_path_length g a b = Ok d →
  ∃ P, nx_shortest_path g a b = Ok P ∧
       head P = Some a ∧ last P = Some b ∧ path_weight g P = Some d ∧
       last (removelast P) ≠ Some b.
Proof.
  unfold nx_shortest_path_length, nx_shortest_path.
  destruct (negb (has_node g a) || negb (has_node g b)); [done|].
  destruct (settled_lookup b (dijkstra g a)) as [[d' p]|] eqn:E; [|done].
  intros [= ->]. exists (path_to (dijkstra g a) b).
  replace (is_settled b (dijkstra g a)) with true
    by (symmetry; apply is_settled_true; by eexists).
  split; [done|].
  destruct (dijkstra_inv g a) as (Hs & _ & _).
  exact (sound_path g a _ _ _ _ Hs E).
Qed.

Lemma nx_route_has_length g a b P :
  nx_shortest_path g a b = Ok P → ∃ d, nx_shortest_path_length g a b = Ok d.
Proof.
  unfold nx_shortest_path_length, nx_shortest_path.
  destruct (negb (has_node g a) || negb (has_node g b)); [done|].
  destruct (is_settled b (dijkstra g a)) eqn:E; [|done].
  apply is_settled_true in E as [[d p] E]. rewrite E. by eexists.
Qed.

Lemma nx_route_ends g a b P :
  nx_shortest_path g a b = Ok P → head P = Some a ∧ last P = Some b.
Proof.
  intros H. destruct (nx_route_has_length _ _ _ _ H) as [d Hd].
  destruct (nx_queries_agree _ _ _ _ Hd) as (P' & HP' & Hh & Hl & _).
  rewrite H in HP'. injection HP' as <-. done.
Qed.

Lemma nx_missing_node g a b :
  has_node g a = false ∨ has_node g b = false →
  nx_shortest_path_length g a b = Raise NodeNotFound ∧
  nx_shortest_path g a b = Raise NodeNotFound.
Proof.
  unfold nx_shortest_path_length, nx_shortest_path.
  by intros [-> | ->]; simpl; rewrite ?orb_true_r.
Qed.

Lemma nx_no_path g a b :
  has_node g a = true → has_node g b = true → ¬ reachable g a b →
  nx_shortest_path_length g a b = Raise Unreachable ∧
  nx_shortest_path g a b = Raise Unreachable.
Proof.
  intros Ha Hb Hno.
  unfold nx_shortest_path_length, nx_shortest_path. rewrite Ha, Hb. simpl.
  destruct (settled_lookup b (dijkstra g a)) as [[d p]|] eqn:E.
  - destruct Hno. exists (path_to (dijkstra g a) b).
    destruct (dijkstra_inv g a) as (Hs & _ & _).
    destruct (sound_path g a _ _ _ _ Hs E) as (? & ? & ? & _).
    by repeat split.
  - apply is_settled_false in E. by rewrite E.
Qed.

Lemma nx_length_Ok g a b d :
  nx_shortest_path_length g a b = Ok d →
  has_node g a = true ∧ has_node g b = true ∧ reachable g a b.
Proof.
  unfold nx_shortest_path_length.
  destruct (has_node g a), (has_node g b); simpl; try done.
  destruct (settled_lookup b (dijkstra g a)) as [[d' p]|] eqn:E; [|done].
  intros _. split; [done|]. split; [done|].
  apply search_decides_reachable, is_settled_true. by eexists.
Qed.

Lemma nx_length_Raise g a b e :
  nx_shortest_path_length g a b = Raise e →
  e = NodeNotFound ∨ e = Unreachable.
Proof.
  unfold nx_shortest_path_length.
  destruct (negb (has_node g a) || negb (has_node g b)).
  - intros [= <-]. by left.
  - destruct (settled_lookup b (dijkstra g a)) as [[d' p]|]; [done|].
    intros [= <-]. by right.
Qed.

Lemma nx_route_Raise g a b e :
  nx_shortest_path g a b = Raise e → e = NodeNotFound ∨ e = Unreachable.
Proof.
  unfold nx_shortest_path.
  destruct (negb (has_node g a) || negb (has_node g b)).
  - intros [= <-]. by left.
  - destruct (is_settled b (dijkstra g a)); [done|]. intros [= <-]. by right.
Qed.

Example distance_B_to_depot :
  shortest_path_length G4 "B" "Auckland Airport" true = Ok (Length 8).
Proof. vm_compute. reflexivity. Qed.

Example route_B_to_depot :
  shortest_path_length G4 "B" "Auckland Airport" false
  = Ok (Route ["B"; "A"; "Auckland Airport"]).
Proof. vm_compute. reflexivity. Qed.

(** C3. On a network without negative weights, for two nodes joined by a
    walk: the distance query returns a distance [d] that is not negative, is
    the weight of a walk from source to target and is at most the weight of
    any such walk; the path query returns a node sequence from source to
    target whose consecutive edges weigh [d] in total. *)
Theorem shortest_path_correct g source target :
  nonneg_weights g = true →
  has_node g source = true → has_node g target = true →
  reachable g source target →
  ∃ d P,
    shortest_path_length g source target true = Ok (Length d) ∧
    0 ≤ d ∧
    (∃ P0, is_walk g source target P0 ∧ path_weight g P0 = Some d) ∧
    (∀ P' d', is_walk g source target P' → path_weight g P' = Some d' →
              d ≤ d') ∧
    shortest_path_length g source target false = Ok (Route P) ∧
    head P = Some source ∧ last P = Some target ∧
    path_weight g P = Some d.
Proof.
  intros Hnn Hs Ht Hreach. apply nonneg_weights_spec in Hnn.
  destruct (dijkstra_inv g source) as (Hsound & Hclosed & Hopt).
  specialize (Hopt Hnn).
  destruct (reachable_walk _ _ _ Hreach) as [d0 Hwalk].
  pose proof (closed_complete _ _ _ Hclosed _ _ Hwalk) as Hset.
  apply is_settled_true in Hset as [[d p] Hd].
  assert (Hlen : nx_shortest_path_length g source target = Ok d).
  { unfold nx_shortest_path_length. by rewrite Hs, Ht, Hd. }
  destruct (nx_queries_agree _ _ _ _ Hlen) as (P & HP & Hhead & Hlast & Hw & _).
  assert (Hlow : ∀ P' d', is_walk g source target P' →
                          path_weight g P' = Some d' → d ≤ d').
  { intros P' d' (Hh' & Hl' & _) Hw'.
    apply (Hopt _ _ _ Hd). replace d' with (0 + d') by lia.
    eapply walk_of_path; [constructor|done..]. }
  exists d, P. unfold shortest_path_length. rewrite Hlen, HP. simpl.
  split; [done|]. split.
  { apply (walk_nonneg g source target); [done|].
    replace d with (0 + d) by lia.
    eapply walk_of_path; [constructor|done..]. }
  split.
  { exists P. by repeat split. }
  done.
Qed.

Lemma shortest_path_correct_witness :
  ∃ d P,
    shortest_path_length G4 "B" "Auckland Airport" true = Ok (Length d) ∧
    0 ≤ d ∧
    (∃ P0, is_walk G4 "B" "Auckland Airport" P0 ∧
           path_weight G4 P0 = Some d) ∧
    (∀ P' d', is_walk G4 "B" "Auckland Airport" P' →
              path_weight G4 P' = Some d' → d ≤ d') ∧
    shortest_path_length G4 "B" "Auckland Airport" false = Ok (Route P) ∧
    head P = Some "B" ∧ last P = Some "Auckland Airport" ∧
    path_weight G4 P = Some d.
Proof.
  apply shortest_path_correct.
  - vm_compute. reflexivity.
  - vm_compute. reflexivity.
  - vm_compute. reflexivity.
  - exists ["B"; "Auckland Airport"]. repeat split.
    vm_compute. by eexists.
Defined.

Arguments shortest_path_length : simpl never.
Arguments nx_shortest_path_length : simpl never.
Arguments nx_shortest_path : simpl never.

Lemma spl_length g a b d :
  shortest_path_length g a b true = Ok (Length d) →
  nx_shortest_path_length g a b = Ok d.
Proof.
  unfold shortest_path_length.
  destruct (nx_shortest_path_length g a b); simpl; congruence.
Qed.

Lemma spl_route g a b p :
  shortest_path_length g a b false = Ok (Route p) →
  nx_shortest_path g a b = Ok p.
Proof.
  unfold shortest_path_length.
  destruct (nx_shortest_path g a b); simpl; congruence.
Qed.

(** ** List primitives *)

Lemma list_remove_head (x : node) (l : list node) :
  list_remove x (x :: l) = Some l.
Proof. simpl. by rewrite decide_True. Qed.

Lemma list_remove_length (x : node) (l l' : list node) :
  list_remove x l = Some l' → length l = Datatypes.S (length l').
Proof.
  revert l'. induction l as [|y l IH]; intros l' H; simpl in H; [done|].
  destruct (decide (y = x)).
  - by inversion H.
  - destruct (list_remove x l) as [l0|] eqn:E; simpl in H; [|done].
    inversion H; subst. simpl. f_equal. by apply IH.
Qed.

Lemma lookup_singleton_inv {A} (x y : A) i : [x] !! i = Some y → y = x.
Proof. destruct i as [|i]; simpl; [congruence|done]. Qed.

Lemma argmin_spec (l : list Z) :
  l ≠ [] →
  ∃ d, l !! argmin l = Some d ∧
       (∀ j dj, l !! j = Some dj → d ≤ dj) ∧
       (∀ j dj, (j < argmin l)%nat → l !! j = Some dj → d < dj).
Proof.
  induction l as [|x l IH]; [done|]. intros _.
  destruct l as [|y l].
  { exists x. simpl. split; [done|]. split.
    - intros [|j] dj H; simpl in H; [inversion H; lia|done].
    - intros j dj Hj. lia. }
  destruct IH as (d & Hd & Hmin & Hfirst); [done|].
  change (argmin (x :: y :: l))
    with (if x <=? nth (argmin (y :: l)) (y :: l) 0
          then O else Datatypes.S (argmin (y :: l))).
  rewrite nth_lookup, Hd. simpl default.
  destruct (Z.leb_spec x d) as [Hle|Hlt].
  - exists x. split; [done|]. split.
    + intros [|j] dj H; simpl in H.
      * inversion H; lia.
      * specialize (Hmin j dj H). lia.
    + intros j dj Hj. lia.
  - exists d. split; [done|]. split.
    + intros [|j] dj H; simpl in H.
      * inversion H; lia.
      * exact (Hmin j dj H).
    + intros [|j] dj Hj H; simpl in H.
      * inversion H; lia.
      * apply (Hfirst j dj); [lia|done].
Qed.

Arguments argmin : simpl never.

Lemma np_argmin_Ok (l : list Z) i :
  np_argmin l = Ok i → l ≠ [] ∧ i = argmin l.
Proof. destruct l; [done|]. by intros [= <-]. Qed.

(** ** One turn of the loop *)

Lemma all_distances_Ok network curr homes ds :
  all_distances network curr homes = Ok ds →
  Forall2 (λ h d, shortest_path_length network curr h true = Ok (Length d))
          homes ds.
Proof.
  revert ds. induction homes as [|h homes IH]; intros ds H; simpl in H.
  - inversion H. constructor.
  - destruct (shortest_path_length network curr h true) as [[d|p]|e] eqn:E;
      simpl in H; try discriminate H.
    destruct (all_distances network curr homes) as [ds'|e] eqn:E';
      simpl in H; try discriminate H.
    inversion H; subst. constructor; [done|]. by apply IH.
Qed.

Lemma all_distances_Raise network curr homes e :
  all_distances network curr homes = Raise e →
  e = NodeNotFound ∨ e = Unreachable.
Proof.
  induction homes as [|h homes IH]; simpl; [done|].
  unfold shortest_path_length.
  destruct (nx_shortest_path_length network curr h) as [d|e'] eqn:E; simpl.
  - destruct (all_distances network curr homes) as [ds|e'']; simpl; [done|].
    intros [= <-]. by apply IH.
  - intros [= <-]. by eapply nx_length_Raise.
Qed.

Lemma all_distances_off_network network curr homes x :
  x ∈ homes → off_network network curr x →
  ∃ e, all_distances network curr homes = Raise e.
Proof.
  intros Hin Hoff. induction homes as [|h homes IH].
  { by apply elem_of_nil in Hin. }
  simpl. unfold shortest_path_length.
  destruct (nx_shortest_path_length network curr h) as [d|e'] eqn:E; simpl;
    [|by eexists].
  apply nx_length_Ok in E as (Hc & Hh & Hr).
  apply elem_of_cons in Hin as [->|Hin].
  { destruct Hoff as [?|[?|?]]; [congruence|congruence|done]. }
  destruct (IH Hin) as [e ->]. simpl. by eexists.
Qed.

(** What a turn that completes has done. *)
Lemma nn_body_Ok network loc homes loc' homes' :
  nn_body network loc homes = (Ok loc', homes') →
  ∃ all_dist d target p,
    all_distances network (curr_node loc) homes = Ok all_dist ∧
    all_dist ≠ [] ∧
    all_dist !! argmin all_dist = Some d ∧
    homes !! argmin all_dist = Some target ∧
    shortest_path_length network (curr_node loc) target false = Ok (Route p) ∧
    loc' = Locals target
             (if negb (going_back loc) && bool_decide (length homes = 1%nat)
              then true else going_back loc)
             (dist_min loc ++ [d])
             (path_homes loc ++ [curr_node loc])
             (path_homes_full loc ++
                [if decide (length homes ≠ 1%nat)
                 then removelast p else p]) ∧
    list_remove target
      (if negb (going_back loc) && bool_decide (length homes = 1%nat)
       then homes ++ ["Auckland Airport"] else homes) = Some homes'.
Proof.
  unfold nn_body, bind, lift, get_homes, homes_at, homes_remove, homes_append,
    ret, raise.
  destruct (all_distances network (curr_node loc) homes) as [all_dist|e] eqn:E;
    [|by intros [=]].
  destruct (np_argmin all_dist) as [min_index|e] eqn:Em; [|by intros [=]].
  apply np_argmin_Ok in Em as [Hne ->].
  destruct (all_dist !! argmin all_dist) as [d|] eqn:Ed; [|by intros [=]].
  destruct (homes !! argmin all_dist) as [target|] eqn:Et; [|by intros [=]].
  destruct (shortest_path_length network (curr_node loc) target false)
    as [[d'|p]|e] eqn:Ep; try (by intros [=]).
  cbn [as_route]. rewrite Et.
  destruct (negb (going_back loc) && bool_decide (length homes = 1%nat))
    eqn:Egb.
  - destruct (list_remove target (homes ++ ["Auckland Airport"]))
      as [h2|] eqn:Er; [|by intros [=]].
    intros H; inversion H; subst homes' loc'.
    exists all_dist, d, target, p. by repeat split.
  - destruct (list_remove target homes) as [h2|] eqn:Er; [|by intros [=]].
    intros H; inversion H; subst homes' loc'.
    exists all_dist, d, target, p. by repeat split.
Qed.

Lemma nn_body_distances_Raise network loc homes e :
  all_distances network (curr_node loc) homes = Raise e →
  nn_body network loc homes = (Raise e, homes).
Proof.
  intros H. unfold nn_body, bind, lift, get_homes. by rewrite H.
Qed.

Lemma nn_body_Raise network loc homes e homes' :
  nn_body network loc homes = (Raise e, homes') → e ≠ RecursionLimit.
Proof.
  unfold nn_body, bind, lift, get_homes, homes_at, homes_remove, homes_append,
    ret, raise.
  destruct (all_distances network (curr_node loc) homes) as [all_dist|e'] eqn:E.
  2:{ intros [= <- _]. apply all_distances_Raise in E as [->| ->]; done. }
  destruct (np_argmin all_dist) as [i|e'] eqn:Ei.
  2:{ intros [= <- _]. destruct all_dist; [|done]. by injection Ei as <-. }
  destruct (all_dist !! i) as [d|]; [|by intros [= <- _]].
  destruct (homes !! i) as [target|] eqn:Et; [|by intros [= <- _]].
  unfold shortest_path_length.
  destruct (nx_shortest_path network (curr_node loc) target) as [p|e'] eqn:Ep;
    cbn [mbind result_bind as_route].
  2:{ intros [= <- _]. apply nx_route_Raise in Ep as [->| ->]; done. }
  rewrite Et.
  destruct (negb (going_back loc) && bool_decide (length homes = 1%nat)).
  - destruct (list_remove target (homes ++ ["Auckland Airport"]));
      intros H; cbn in H; by inversion H.
  - destruct (list_remove target homes); intros H; cbn in H; by inversion H.
Qed.

Lemma nn_body_pending network loc homes loc' homes' :
  nn_body network loc homes = (Ok loc', homes') →
  (length homes' + (if going_back loc' then 0 else 1)
   < length homes + (if going_back loc then 0 else 1))%nat.
Proof.
  intros H. apply nn_body_Ok in H.
  destruct H as (all_dist & d & target & p & _ & _ & _ & Ht & _ & -> & Hrm).
  apply list_remove_length in Hrm. apply lookup_lt_Some in Ht. simpl.
  destruct (going_back loc); simpl in *; [lia|].
  destruct (bool_decide (length homes = 1%nat)) eqn:E.
  - rewrite length_app in Hrm. simpl in Hrm.
    apply bool_decide_eq_true in E. lia.
  - lia.
Qed.

Lemma nn_body_last_turn network loc homes loc' :
  nn_body network loc homes = (Ok loc', []) → length homes = 1%nat.
Proof.
  intros H. apply nn_body_Ok in H.
  destruct H as (all_dist & d & target & p & _ & _ & _ & Ht & _ & _ & Hrm).
  apply list_remove_length in Hrm. simpl in Hrm.
  destruct (negb (going_back loc) && bool_decide (length homes = 1%nat)) eqn:E.
  - rewrite length_app in Hrm. simpl in Hrm.
    apply lookup_lt_Some in Ht. lia.
  - lia.
Qed.

(** C5. In a turn of the loop the stop chosen is a pending stop at least
    distance from the current node, and every pending stop listed before it
    is strictly farther: among the nearest the first of the pending list is
    taken. *)
Theorem nearest_stop_selected network loc homes loc' homes' :
  nn_body network loc homes = (Ok loc', homes') →
  ∃ i d,
    homes !! i = Some (curr_node loc') ∧
    shortest_path_length network (curr_node loc) (curr_node loc') true
    = Ok (Length d) ∧
    dist_min loc' = dist_min loc ++ [d] ∧
    ∀ j h, homes !! j = Some h →
      ∃ dj, shortest_path_length network (curr_node loc) h true
            = Ok (Length dj) ∧
            d ≤ dj ∧ ((j < i)%nat → d < dj).
Proof.
  intros H. apply nn_body_Ok in H.
  destruct H as (all_dist & d & target & p & Hall & Hne & Hd & Ht & _ & -> & _).
  apply all_distances_Ok in Hall.
  destruct (argmin_spec all_dist Hne) as (d' & Hd' & Hmin & Hfirst).
  rewrite Hd in Hd'. inversion Hd'; subst d'. clear Hd'.
  exists (argmin all_dist), d. simpl. split; [done|]. split.
  { by destruct (Forall2_lookup_lr _ _ _ _ _ _ Hall Ht Hd). }
  split; [done|].
  intros j h Hj.
  destruct (Forall2_lookup_l _ _ _ _ _ Hall Hj) as (dj & Hdj & Hq).
  exists dj. split; [done|]. split.
  - by eapply Hmin.
  - intros Hlt. by eapply Hfirst.
Qed.

Lemma nearest_stop_selected_witness :
  ∃ i d,
    ["A"; "B"] !! i = Some "A" ∧
    shortest_path_length G4 "Auckland Airport" "A" true = Ok (Length d) ∧
    [5] = [] ++ [d] ∧
    ∀ j h, ["A"; "B"] !! j = Some h →
      ∃ dj, shortest_path_length G4 "Auckland Airport" h true
            = Ok (Length dj) ∧
            d ≤ dj ∧ ((j < i)%nat → d < dj).
Proof.
  apply (nearest_stop_selected G4
           (Locals "Auckland Airport" false [] [] []) ["A"; "B"]
           (Locals "A" false [5] ["Auckland Airport"] [["Auckland Airport"]])
           ["B"]).
  vm_compute. reflexivity.
Defined.

(** ** The loop and the call *)

Lemma nearest_neighbor_cons network depot rest :
  nearest_neighbor network (depot :: rest)
  = match nn_while network (Datatypes.S (length rest))
            (Locals depot false [] [] []) rest with
    | (Ok loc, h) =>
        (Ok (dist_min loc, path_homes loc ++ [depot], path_homes_full loc), h)
    | (Raise e, h) => (Raise e, h)
    end.
Proof.
  unfold nearest_neighbor, bind, homes_at, homes_remove, get_homes, ret.
  cbn -[nn_while]. rewrite decide_True by done. done.
Qed.

Lemma nn_while_Ok_empty network fuel loc homes loc' homes' :
  nn_while network fuel loc homes = (Ok loc', homes') → homes' = [].
Proof.
  revert loc homes. induction fuel as [|fuel IH]; intros loc homes H.
  - destruct homes; simpl in H; by inversion H.
  - destruct homes as [|h homes]; simpl in H; [by inversion H|].
    destruct (nn_body network loc (h :: homes)) as [[loc1|e] homes1] eqn:E.
    + by eapply IH.
    + by inversion H.
Qed.

Lemma nn_while_within_bound network fuel : ∀ loc homes,
  (length homes + (if going_back loc then 0 else 1) ≤ fuel)%nat →
  (nn_while network fuel loc homes).1 ≠ Raise RecursionLimit.
Proof.
  induction fuel as [|fuel IH]; intros loc homes Hfuel.
  - destruct homes; [done|]. simpl in Hfuel. lia.
  - destruct homes as [|h homes]; [done|]. simpl nn_while.
    destruct (nn_body network loc (h :: homes)) as [[loc1|e] homes1] eqn:E.
    + apply IH. apply nn_body_pending in E. lia.
    + simpl. intros [= ->]. by apply nn_body_Raise in E.
Qed.

(** The bound on the turns never cuts a call short. *)
Lemma nearest_neighbor_within_bound network homes :
  (nearest_neighbor network homes).1 ≠ Raise RecursionLimit.
Proof.
  destruct homes as [|depot rest]; [done|].
  rewrite nearest_neighbor_cons.
  pose proof (nn_while_within_bound network (Datatypes.S (length rest))
                (Locals depot false [] [] []) rest) as H.
  destruct (nn_while _ _ _ rest) as [[loc|e] h]; [done|].
  simpl in *. intros [= ->]. apply H; [lia|done].
Qed.

(** C10. A call that returns normally leaves the caller's list empty. *)
Theorem nearest_neighbor_empties_homes network homes out homes' :
  nearest_neighbor network homes = (Ok out, homes') → homes' = [].
Proof.
  unfold nearest_neighbor, bind, homes_at, homes_remove, get_homes, ret.
  destruct (homes !! 0%nat) as [curr|]; [|by inversion 1].
  destruct (list_remove curr homes) as [pending|]; [|by inversion 1].
  destruct (nn_while _ _ _ pending) as [[loc|e] h1] eqn:E; [|by inversion 1].
  intros H. inversion H; subst. by eapply nn_while_Ok_empty.
Qed.

Lemma nearest_neighbor_empties_homes_witness :
  (nearest_neighbor G4 ["Auckland Airport"; "A"; "B"]).2 = [].
Proof.
  apply (nearest_neighbor_empties_homes G4 ["Auckland Airport"; "A"; "B"]
           ([5; 3; 8], ["Auckland Airport"; "A"; "B"; "Auckland Airport"],
            [["Auckland Airport"]; ["A"; "B"];
             ["B"; "A"; "Auckland Airport"]])).
  vm_compute. reflexivity.
Defined.

(** ** Short stop lists *)

(** C6, as the code has it: a list that holds only the depot makes no turn
    of the loop and returns the empty tour [([], [depot], [])], whatever the
    network; the empty list fails at [homes[0]] with an IndexError. *)
Theorem nearest_neighbor_short_list network :
  (∀ depot, nearest_neighbor network [depot] = (Ok ([], [depot], []), [])) ∧
  nearest_neighbor network [] = (Raise IndexError, []).
Proof.
  split; [intros depot|reflexivity].
  unfold nearest_neighbor, bind, homes_at, homes_remove, get_homes, ret.
  simpl. by rewrite decide_True.
Qed.

(** C6 fails on the list that holds only the depot: the call does not
    fail. *)
Lemma depot_only_list_returns :
  ¬ ∃ e, (nearest_neighbor G4 ["Auckland Airport"]).1 = Raise e.
Proof. intros [e H]. vm_compute in H. discriminate H. Qed.

(** ** Failures *)

Lemma loop_stops_off_network network fuel loc homes x :
  x ∈ homes → off_network network (curr_node loc) x →
  ∃ e, (e = NodeNotFound ∨ e = Unreachable) ∧
       nn_body network loc homes = (Raise e, homes) ∧
       nn_while network (Datatypes.S fuel) loc homes = (Raise e, homes).
Proof.
  intros Hin Hoff.
  destruct (all_distances_off_network _ _ _ _ Hin Hoff) as [e He].
  exists e. split; [by eapply all_distances_Raise|].
  pose proof (nn_body_distances_Raise _ _ _ _ He) as Hb.
  split; [done|].
  destruct homes as [|h homes]; [by apply elem_of_nil in Hin|].
  simpl. by rewrite Hb.
Qed.

(** C7, as the code has it. The queries fail with NodeNotFound when an
    endpoint is not a node and with Unreachable when no walk joins two
    nodes. A turn of the loop that finds a pending stop missing, or not
    joined to the current node, ends the loop with one of these failures,
    and so does the call, for a list that holds the depot and at least one
    more stop. *)
Theorem failures_propagate network :
  (∀ a b distance,
     has_node network a = false ∨ has_node network b = false →
     shortest_path_length network a b distance = Raise NodeNotFound) ∧
  (∀ a b distance,
     has_node network a = true → has_node network b = true →
     ¬ reachable network a b →
     shortest_path_length network a b distance = Raise Unreachable) ∧
  (∀ fuel loc homes x,
     x ∈ homes → off_network network (curr_node loc) x →
     ∃ e, (e = NodeNotFound ∨ e = Unreachable) ∧
          nn_while network (Datatypes.S fuel) loc homes = (Raise e, homes)) ∧
  (∀ depot rest x,
     x ∈ rest → off_network network depot x →
     ∃ e, (e = NodeNotFound ∨ e = Unreachable) ∧
          nearest_neighbor network (depot :: rest) = (Raise e, rest)).
Proof.
  split; [|split; [|split]].
  - intros a b distance H. apply nx_missing_node in H as [H1 H2].
    unfold shortest_path_length. destruct distance; by rewrite ?H1, ?H2.
  - intros a b distance Ha Hb Hno.
    destruct (nx_no_path _ _ _ Ha Hb Hno) as [H1 H2].
    unfold shortest_path_length. destruct distance; by rewrite ?H1, ?H2.
  - intros fuel loc homes x Hin Hoff.
    destruct (loop_stops_off_network network fuel loc homes x Hin Hoff)
      as (e & He & _ & Hw).
    by exists e.
  - intros depot rest x Hin Hoff.
    destruct (loop_stops_off_network network (length rest)
                (Locals depot false [] [] []) rest x Hin Hoff)
      as (e & He & _ & Hw).
    exists e. split; [done|].
    by rewrite nearest_neighbor_cons, Hw.
Qed.

Lemma failures_propagate_witness :
  shortest_path_length G4 "Ghost" "A" true = Raise NodeNotFound ∧
  shortest_path_length G4 "A" "C" false = Raise Unreachable ∧
  (∃ e, (e = NodeNotFound ∨ e = Unreachable) ∧
        nn_while G4 1 (Locals "B" false [] [] []) ["Ghost"]
        = (Raise e, ["Ghost"])) ∧
  (∃ e, (e = NodeNotFound ∨ e = Unreachable) ∧
        nearest_neighbor G4 ["Auckland Airport"; "A"; "C"]
        = (Raise e, ["A"; "C"])).
Proof.
  destruct (failures_propagate G4) as (H1 & H2 & H3 & H4).
  split; [|split; [|split]].
  - apply H1. left. vm_compute. reflexivity.
  - apply H2.
    + vm_compute. reflexivity.
    + vm_compute. reflexivity.
    + intros H. apply search_decides_reachable in H. vm_compute in H.
      discriminate H.
  - apply (H3 O (Locals "B" false [] [] []) ["Ghost"] "Ghost").
    + left.
    + right. left. vm_compute. reflexivity.
  - apply (H4 "Auckland Airport" ["A"; "C"] "C").
    + right. left.
    + right. right. intros H. apply search_decides_reachable in H.
      vm_compute in H. discriminate H.
Defined.

(** C7 fails on a list that holds nothing but a depot missing from the
    network: no query is made and the call returns. *)
Lemma missing_depot_alone_returns :
  has_node G4 "Ghost" = false ∧
  nearest_neighbor G4 ["Ghost"] = (Ok ([], ["Ghost"], []), []).
Proof. split; vm_compute; reflexivity. Qed.

(** ** The scenario of three stops *)

(** C2, as the code has it: with the depot named Auckland Airport the tour is
    depot, A, B, depot and the legs measure 5, 3 and 8, in total 16. The
    way back from B goes through A (3 + 5), which beats the direct road of
    weight 9. *)
Theorem scenario_tour :
  nearest_neighbor G4 ["Auckland Airport"; "A"; "B"]
  = (Ok ([5; 3; 8],
         ["Auckland Airport"; "A"; "B"; "Auckland Airport"],
         [["Auckland Airport"]; ["A"; "B"]; ["B"; "A"; "Auckland Airport"]]),
     []) ∧
  total_distance [5; 3; 8] = 16.
Proof. split; vm_compute; reflexivity. Qed.

(** C2 as stated is not what the code returns, neither with the depot
    named Auckland Airport nor with a depot named D. *)
Lemma scenario_not_5_3_9 :
  (∀ full homes',
     nearest_neighbor G4 ["Auckland Airport"; "A"; "B"]
     ≠ (Ok ([5; 3; 9],
            ["Auckland Airport"; "A"; "B"; "Auckland Airport"], full),
        homes')) ∧
  (∀ full homes',
     nearest_neighbor G4D ["D"; "A"; "B"]
     ≠ (Ok ([5; 3; 9], ["D"; "A"; "B"; "D"], full), homes')).
Proof. split; intros full homes' H; vm_compute in H; discriminate H. Qed.

(** ** The last two turns *)

(** From a state that has not scheduled the way back: the loop ends with
    the leg to the last stop and the leg to Auckland Airport, both logged in
    full. *)
Lemma nn_while_closing network fuel : ∀ loc homes loc' homes',
  going_back loc = false → homes ≠ [] →
  nn_while network fuel loc homes = (Ok loc', homes') →
  ∃ before from stop to_stop back,
    path_homes_full loc' = before ++ [to_stop; back] ∧
    nx_shortest_path network from stop = Ok to_stop ∧
    nx_shortest_path network stop "Auckland Airport" = Ok back ∧
    curr_node loc' = "Auckland Airport".
Proof.
  induction fuel as [|fuel IH]; intros loc homes loc' homes' Hgb Hne H.
  { by destruct homes. }
  destruct homes as [|h t]; [done|]. simpl in H.
  destruct (nn_body network loc (h :: t)) as [[loc1|e] homes1] eqn:E; [|done].
  apply nn_body_Ok in E.
  destruct E as (all_dist & d & target & p & _ & _ & _ & Ht & Hp & -> & Hrm).
  rewrite Hgb in *. simpl negb in *. rewrite andb_true_l in *.
  destruct t as [|h2 t].
  - (* the last stop *)
    apply lookup_singleton_inv in Ht as ->.
    rewrite bool_decide_eq_true_2 in * by done.
    simpl in Hrm. rewrite decide_True in Hrm by done. injection Hrm as <-.
    rewrite decide_False in H by (intros Hx; by apply Hx).
    destruct fuel as [|fuel]; [done|]. simpl in H.
    match type of H with
    | context [nn_body network ?l ?hs] =>
        destruct (nn_body network l hs) as [[loc2|e] homes2] eqn:E2; [|done]
    end.
    apply nn_body_Ok in E2.
    destruct E2 as (all_dist2 & d2 & target2 & p2 & _ & _ & _ & Ht2 & Hp2
                    & -> & Hrm2).
    apply lookup_singleton_inv in Ht2 as ->.
    cbn [going_back curr_node path_homes_full negb andb] in *.
    simpl in Hrm2. injection Hrm2 as <-.
    destruct fuel; simpl in H; injection H as <- <-; simpl.
    all: exists (path_homes_full loc), (curr_node loc), h, p, p2.
    all: rewrite <- app_assoc; split; [done|].
    all: split; [by apply spl_route|]; split; [by apply spl_route|done].
  - (* more stops are pending *)
    rewrite bool_decide_eq_false_2 in * by done.
    eapply IH; [| |exact H]; [done|].
    apply list_remove_length in Hrm. by destruct homes1.
Qed.

(** Whatever the depot, a tour with at least one stop logs the depot last
    and ends with a leg to the node called Auckland Airport. *)
Lemma return_leg_ends_at_airport network depot rest dists visited full homes' :
  rest ≠ [] →
  nearest_neighbor network (depot :: rest)
  = (Ok (dists, visited, full), homes') →
  last visited = Some depot ∧
  ∃ stop back,
    last full = Some back ∧
    shortest_path_length network stop "Auckland Airport" false
    = Ok (Route back) ∧
    last back = Some "Auckland Airport".
Proof.
  intros Hne. rewrite nearest_neighbor_cons.
  destruct (nn_while network (Datatypes.S (length rest))
              (Locals depot false [] [] []) rest) as [[loc|e] h] eqn:E; [|done].
  intros [= <- <- <- _]. split; [by rewrite last_snoc|].
  apply nn_while_closing in E; [|done..].
  destruct E as (before & from & stop & to_stop & back & -> & _ & Hback & _).
  exists stop, back. split.
  { change [to_stop; back] with ([to_stop] ++ [back]).
    by rewrite app_assoc, last_snoc. }
  split.
  - unfold shortest_path_length. by rewrite Hback.
  - by apply nx_route_ends in Hback as [_ ?].
Qed.

(** C1 at a depot named D: the log of visited stops ends with D, the last
    leg ends at the node called Auckland Airport. When the network has no
    such node the call fails. *)
Theorem return_leg_ignores_depot :
  nearest_neighbor G3 ["D"; "A"]
  = (Ok ([5; 2], ["D"; "A"; "D"], [["D"; "A"]; ["A"; "Auckland Airport"]]),
     []) ∧
  nearest_neighbor G4D ["D"; "A"; "B"]
  = (Raise NodeNotFound, ["Auckland Airport"]).
Proof. split; vm_compute; reflexivity. Qed.

(** In every tour with at least one stop the leg to the last stop and the
    leg back are both logged in full, and the flattened path names the last
    stop twice in a row. *)
Lemma last_seam_repeats_stop network depot rest dists visited full homes' :
  rest ≠ [] →
  nearest_neighbor network (depot :: rest)
  = (Ok (dists, visited, full), homes') →
  ∃ before to_stop back stop,
    full = before ++ [to_stop; back] ∧
    last to_stop = Some stop ∧ head back = Some stop ∧
    ∃ l1 l2, flat_region_path_full full = l1 ++ stop :: stop :: l2.
Proof.
  intros Hne. rewrite nearest_neighbor_cons.
  destruct (nn_while network (Datatypes.S (length rest))
              (Locals depot false [] [] []) rest) as [[loc|e] h] eqn:E; [|done].
  intros [= _ _ <- _].
  apply nn_while_closing in E; [|done..].
  destruct E as (before & from & stop & to_stop & back & -> & Hto & Hback & _).
  apply nx_route_ends in Hto as [_ Hlast].
  apply nx_route_ends in Hback as [Hhead _].
  exists before, to_stop, back, stop. split; [done|]. split; [done|].
  split; [done|].
  destruct back as [|b back]; [done|]. injection Hhead as ->.
  destruct to_stop as [|z to_stop _] using rev_ind; [done|].
  rewrite last_snoc in Hlast. injection Hlast as ->.
  exists (concat before ++ to_stop), back.
  unfold flat_region_path_full. rewrite concat_app. simpl.
  rewrite app_nil_r. by rewrite <- !app_assoc.
Qed.

(** C4 at one stop: both legs are logged in full, and the flattened path
    that [solve_region] plots holds A twice in a row. *)
Theorem last_stop_leg_kept_in_full :
  nearest_neighbor G2 ["Auckland Airport"; "A"]
  = (Ok ([5; 5], ["Auckland Airport"; "A"; "Auckland Airport"],
         [["Auckland Airport"; "A"]; ["A"; "Auckland Airport"]]), []) ∧
  flat_region_path_full [["Auckland Airport"; "A"]; ["A"; "Auckland Airport"]]
  = ["Auckland Airport"; "A"; "A"; "Auckland Airport"].
Proof. split; vm_compute; reflexivity. Qed.

(** ** Stitching the legs *)

Lemma total_distance_snoc ds d :
  total_distance (ds ++ [d]) = total_distance ds + d.
Proof.
  unfold total_distance. induction ds as [|x ds IH]; simpl; [lia|].
  rewrite IH. lia.
Qed.

Lemma stitch_snoc segs seg : stitch (segs ++ [seg]) = join (stitch segs) seg.
Proof. unfold stitch. by rewrite foldl_app. Qed.

Lemma join_single_last T c : last (join T [c]) = Some c.
Proof.
  unfold join. destruct (decide (last T = Some c)) as [H|_].
  - by rewrite app_nil_r.
  - by rewrite last_snoc.
Qed.

Lemma join_head T c P : join T (c :: P) = join T [c] ++ P.
Proof.
  unfold join. destruct (decide (last T = Some c)).
  - by rewrite app_nil_r.
  - by rewrite <- app_assoc.
Qed.

Lemma join_ends T c : last T = Some c → join T [c] = T.
Proof.
  intros H. unfold join. rewrite decide_True by done. by rewrite app_nil_r.
Qed.

Lemma join_other T c : last T ≠ Some c → join T [c] = T ++ [c].
Proof. intros H. unfold join. by rewrite decide_False. Qed.

Lemma last_app_from {A} (W X : list A) c :
  last W = Some c → last (W ++ X) = last (c :: X).
Proof.
  intros H. by rewrite last_app, last_cons, H.
Qed.

Lemma path_weight_cons g a b P :
  path_weight g (a :: b :: P)
  = match edge_weight g a b, path_weight g (b :: P) with
    | Some w, Some r => Some (w + r)
    | _, _ => None
    end.
Proof. done. Qed.

Lemma path_weight_app g W c P a b :
  last W = Some c → path_weight g W = Some a →
  path_weight g (c :: P) = Some b →
  path_weight g (W ++ P) = Some (a + b).
Proof.
  revert a. induction W as [|x W IH]; intros a Hlast Ha Hb; [done|].
  destruct W as [|y W].
  - simpl in Hlast, Ha. injection Hlast as ->. injection Ha as <-.
    simpl app. by rewrite Hb.
  - rewrite path_weight_cons in Ha.
    change ((x :: y :: W) ++ P) with (x :: y :: (W ++ P)).
    rewrite path_weight_cons.
    destruct (edge_weight g x y) as [w|]; [|done].
    destruct (path_weight g (y :: W)) as [r|] eqn:Er; [|done].
    injection Ha as <-.
    change (y :: W ++ P) with ((y :: W) ++ P).
    rewrite (IH r); [f_equal; lia|done..].
Qed.

Lemma nn_body_stitch network loc homes loc' homes' :
  nn_body network loc homes = (Ok loc', homes') →
  path_weight network (join (stitch (path_homes_full loc)) [curr_node loc])
  = Some (total_distance (dist_min loc)) →
  path_weight network (join (stitch (path_homes_full loc')) [curr_node loc'])
  = Some (total_distance (dist_min loc')) ∧
  (length homes = 1%nat →
   last (stitch (path_homes_full loc')) = Some (curr_node loc')).
Proof.
  intros H Hinv. apply nn_body_Ok in H.
  destruct H as (all_dist & d & target & p & Hall & _ & Hd & Ht & Hp & -> & _).
  apply all_distances_Ok in Hall.
  pose proof (Forall2_lookup_lr _ _ _ _ _ _ Hall Ht Hd) as Hq. simpl in Hq.
  apply spl_length, nx_queries_agree in Hq.
  destruct Hq as (P & HP & Hhead & Hlast & Hw & Hseam).
  apply spl_route in Hp. rewrite Hp in HP. injection HP as <-.
  cbn [curr_node dist_min path_homes_full].
  rewrite stitch_snoc, total_distance_snoc.
  set (c := curr_node loc) in *.
  set (T := stitch (path_homes_full loc)) in *.
  pose proof (join_single_last T c) as HW.
  destruct p as [|c' P']; [done|]. injection Hhead as ->.
  destruct (decide (length homes ≠ 1%nat)) as [Hlen|Hlen].
  - split; [|done].
    destruct P' as [|z P'' _] using rev_ind.
    + simpl in Hlast, Hw. injection Hlast as <-. injection Hw as <-.
      cbn [removelast join]. by rewrite Z.add_0_r.
    + change (c :: P'' ++ [z]) with ((c :: P'') ++ [z]) in *.
      rewrite removelast_last in *. rewrite last_snoc in Hlast.
      injection Hlast as ->.
      rewrite (join_head T c P'').
      assert (Hl : last (join T [c] ++ P'') ≠ Some target).
      { rewrite (last_app_from _ _ c HW). exact Hseam. }
      rewrite (join_other _ _ Hl), <- app_assoc. by eapply path_weight_app.
  - assert (Hl : last (join T [c] ++ P') = Some target).
    { rewrite (last_app_from _ _ c HW). exact Hlast. }
    rewrite (join_head T c P'), join_ends by done.
    split; [by eapply path_weight_app|done].
Qed.





(** ** Region slices *)

Lemma list_index_absent (x : string) (l : list string) :
  Forall (λ y, y ≠ x) l → list_index x l = None.
Proof.
  induction 1 as [|y l Hy _ IH]; simpl; [done|].
  rewrite decide_False by done. by rewrite IH.
Qed.

Lemma list_index_first (x : string) (l1 l2 : list string) :
  Forall (λ y, y ≠ x) l1 → list_index x (l1 ++ x :: l2) = Some (length l1).
Proof.
  induction 1 as [|y l Hy _ IH]; simpl.
  - by rewrite decide_True.
  - rewrite decide_False by done. by rewrite IH.
Qed.

Lemma py_slice_middle {A} (l1 l2 l3 : list A) :
  py_slice (l1 ++ l2 ++ l3) (length l1) (length l1 + length l2)%nat = l2.
Proof.
  unfold py_slice. rewrite drop_app_length.
  replace (length l1 + length l2 - length l1)%nat with (length l2) by lia.
  by rewrite take_app_length.
Qed.

Example region_R2 :
  region_stops [("h1", "s1", "R1"); ("h2", "s2", "R1"); ("h3", "s3", "R2")] "R2"
  = Ok ["Auckland Airport"; "h3"].
Proof. reflexivity. Qed.

(** C8. When the rows that carry the label [search] form one block of the
    table, the slice is the depot followed by the houses of that block in
    table order; when no row carries the label, [list.index] raises
    (ValueError, the failure that the specification calls RegionNotFound). *)
Theorem region_stops_contiguous
    (data : list (string * string * string)) (search : string) :
  (∀ before block after,
     data = before ++ block ++ after →
     block ≠ [] →
     Forall (λ row, row.2 = search) block →
     Forall (λ row, row.2 ≠ search) before →
     Forall (λ row, row.2 ≠ search) after →
     region_stops data search
     = Ok ("Auckland Airport" :: ((λ row, row.1.1) <$> block))) ∧
  (Forall (λ row, row.2 ≠ search) data →
   region_stops data search = Raise ValueError).
Proof.
  split.
  - intros before block after -> Hne Hblock Hbefore Hafter.
    unfold region_stops.
    set (label := λ row : string * string * string, row.2).
    set (house := λ row : string * string * string, row.1.1).
    assert (Hfirst : list_index search (label <$> before ++ block ++ after)
                     = Some (length before)).
    { destruct block as [|b block]; [done|].
      rewrite !fmap_app. simpl.
      replace (label b) with search by (by inversion Hblock).
      rewrite <- (length_fmap label before).
      apply list_index_first. by apply Forall_fmap. }
    assert (Hlast : list_index search
                      (reverse (label <$> before ++ block ++ after))
                    = Some (length after)).
    { destruct (reverse block) as [|b kcolb] eqn:E.
      { apply (f_equal reverse) in E. rewrite reverse_involutive in E.
        by subst. }
      assert (Hb : label b = search).
      { assert (Hin : b ∈ reverse block) by (rewrite E; left).
        rewrite elem_of_reverse in Hin.
        by apply (proj1 (Forall_forall _ _) Hblock). }
      rewrite !fmap_app, !reverse_app, <- !(fmap_reverse label), E. simpl.
      rewrite Hb, <- app_assoc. simpl.
      rewrite <- (length_reverse after), <- (length_fmap label (reverse after)).
      apply list_index_first. apply Forall_fmap, Forall_reverse.
      exact Hafter. }
    rewrite Hfirst, Hlast. simpl. do 2 f_equal.
    rewrite !fmap_app, !length_app, !length_fmap.
    replace (length before + (length block + length after) - length after)%nat
      with (length (house <$> before) + length (house <$> block))%nat
      by (rewrite !length_fmap; lia).
    rewrite <- (length_fmap house before) at 1.
    apply py_slice_middle.
  - intros Habsent. unfold region_stops.
    rewrite list_index_absent; [done|]. by apply Forall_fmap.
Qed.

Lemma region_stops_contiguous_witness :
  region_stops [("h1", "s1", "R1"); ("h2", "s2", "R1"); ("h3", "s3", "R2")] "R1"
  = Ok ["Auckland Airport"; "h1"; "h2"] ∧
  region_stops [("h1", "s1", "R1"); ("h2", "s2", "R1"); ("h3", "s3", "R2")] "R3"
  = Raise ValueError.
Proof.
  split.
  - apply (proj1 (region_stops_contiguous _ "R1")
             [] [("h1", "s1", "R1"); ("h2", "s2", "R1")] [("h3", "s3", "R2")]).
    + reflexivity.
    + discriminate.
    + repeat constructor.
    + constructor.
    + repeat constructor. simpl. discriminate.
  - apply (proj2 (region_stops_contiguous _ "R3")).
    repeat constructor; simpl; discriminate.
Defined.

(** ** The shape of a tour *)

Lemma list_remove_perm (x : node) (l l' : list node) :
  list_remove x l = Some l' → l ≡ₚ x :: l'.
Proof.
  revert l'. induction l as [|y l IH]; intros l' H; simpl in H; [done|].
  destruct (decide (y = x)) as [->|Hne].
  - by injection H as <-.
  - destruct (list_remove x l) as [l0|] eqn:E; simpl in H; [|done].
    injection H as <-. rewrite (IH l0 eq_refl). apply perm_swap.
Qed.

Lemma list_remove_is_Some (x : node) (l : list node) :
  x ∈ l → is_Some (list_remove x l).
Proof.
  induction l as [|y l IH]; intros Hin; [by apply elem_of_nil in Hin|].
  simpl. destruct (decide (y = x)); [by eexists|].
  apply elem_of_cons in Hin as [?|Hin]; [congruence|].
  destruct (IH Hin) as [l' ->]. by eexists.
Qed.

(** A turn that completes, told through the queries it made. *)
Lemma nn_body_turn network loc homes loc' homes' :
  nn_body network loc homes = (Ok loc', homes') →
  ∃ d target p,
    target ∈ homes ∧
    shortest_path_length network (curr_node loc) target true
    = Ok (Length d) ∧
    shortest_path_length network (curr_node loc) target false
    = Ok (Route p) ∧
    loc' = Locals target
             (if negb (going_back loc) && bool_decide (length homes = 1%nat)
              then true else going_back loc)
             (dist_min loc ++ [d])
             (path_homes loc ++ [curr_node loc])
             (path_homes_full loc ++
                [if decide (length homes ≠ 1%nat)
                 then removelast p else p]) ∧
    list_remove target
      (if negb (going_back loc) && bool_decide (length homes = 1%nat)
       then homes ++ ["Auckland Airport"] else homes) = Some homes'.
Proof.
  intros H. apply nn_body_Ok in H.
  destruct H as (all_dist & d & target & p & Hall & _ & Hd & Ht & Hp & Hl & Hr).
  apply all_distances_Ok in Hall.
  pose proof (Forall2_lookup_lr _ _ _ _ _ _ Hall Ht Hd) as Hq. simpl in Hq.
  exists d, target, p. repeat split; try done.
  by eapply list_elem_of_lookup_2.
Qed.

(** A property that every completed turn keeps holds when the loop ends. *)
Lemma nn_while_invariant network (P : locals → list node → Prop) :
  (∀ loc homes loc' homes',
     P loc homes → nn_body network loc homes = (Ok loc', homes') →
     P loc' homes') →
  ∀ fuel loc homes loc' homes',
    P loc homes →
    nn_while network fuel loc homes = (Ok loc', homes') →
    P loc' [] ∧ homes' = [].
Proof.
  intros Hstep. induction fuel as [|fuel IH]; intros loc homes loc' homes' HP H.
  - destruct homes; simpl in H; [|done]. by injection H as <- <-.
  - destruct homes as [|h homes]; simpl in H.
    { by injection H as <- <-. }
    destruct (nn_body network loc (h :: homes)) as [[loc1|e] homes1] eqn:E;
      [|done].
    eapply IH; [|exact H]. by eapply Hstep.
Qed.

Lemma tour_invariant_step network depot rest loc homes loc' homes' :
  tour_invariant depot rest loc homes →
  nn_body network loc homes = (Ok loc', homes') →
  tour_invariant depot rest loc' homes'.
Proof.
  intros (Hperm & Hhead & Hd & Hf & Hgb & Hngb) H.
  apply nn_body_turn in H.
  destruct H as (d & target & p & Hin & _ & _ & -> & Hrm).
  apply list_remove_perm in Hrm.
  unfold tour_invariant. cbn [curr_node going_back dist_min path_homes
                               path_homes_full].
  split; [|split; [|split; [|split; [|split]]]].
  - rewrite <- app_assoc. simpl. rewrite <- Hrm.
    destruct (going_back loc); simpl in *.
    + done.
    + destruct (bool_decide (length homes = 1%nat)); simpl.
      * rewrite app_nil_r in Hperm.
        change (depot :: rest ++ ["Auckland Airport"])
          with ((depot :: rest) ++ ["Auckland Airport"]).
        by rewrite <- Hperm, <- app_assoc.
      * by rewrite app_nil_r in *.
  - rewrite <- app_assoc. simpl.
    destruct (path_homes loc); simpl in *; congruence.
  - rewrite !length_app. simpl. lia.
  - rewrite !length_app. simpl. lia.
  - intros Hgb'. apply Permutation_length in Hrm. simpl in Hrm.
    destruct (going_back loc); simpl in *.
    + specialize (Hgb eq_refl). lia.
    + destruct (bool_decide (length homes = 1%nat)) eqn:E; [|done].
      apply bool_decide_eq_true in E. rewrite length_app in Hrm.
      simpl in Hrm. lia.
  - intros Hgb' _ ->. apply Permutation_length in Hrm. simpl in Hrm.
    destruct (going_back loc); [done|]. simpl in *.
    destruct (bool_decide (length homes = 1%nat)) eqn:E; [done|].
    apply bool_decide_eq_false in E.
    destruct homes as [|h1 [|h2 homes]]; simpl in *;
      [by apply elem_of_nil in Hin|done|lia].
Qed.

Lemma tour_invariant_init depot rest :
  tour_invariant depot rest (Locals depot false [] [] []) rest.
Proof.
  unfold tour_invariant. simpl. rewrite app_nil_r.
  by repeat split.
Qed.

(** The state in which a call that returns has left the loop: every
    property that the turns keep holds of it. *)
Lemma nearest_neighbor_Ok network depot rest dists visited full homes' :
  nearest_neighbor network (depot :: rest)
  = (Ok (dists, visited, full), homes') →
  ∃ loc, dists = dist_min loc ∧ visited = path_homes loc ++ [depot] ∧
         full = path_homes_full loc ∧
         (rest ≠ [] → curr_node loc = "Auckland Airport") ∧
         ∀ P : locals → list node → Prop,
           (∀ l h l' h',
              P l h → nn_body network l h = (Ok l', h') → P l' h') →
           P (Locals depot false [] [] []) rest → P loc [].
Proof.
  rewrite nearest_neighbor_cons.
  destruct (nn_while network (Datatypes.S (length rest))
              (Locals depot false [] [] []) rest) as [[loc|e] h] eqn:E; [|done].
  intros [= <- <- <- _]. exists loc. repeat split; try done.
  - intros Hne.
    by destruct (nn_while_closing network _ (Locals depot false [] [] [])
                   _ _ _ eq_refl Hne E)
      as (? & ? & ? & ? & ? & _ & _ & _ & Hcurr).
  - intros P Hstep Hinit.
    by destruct (nn_while_invariant network P Hstep _ _ _ _ _ Hinit E).
Qed.

(** X1. A tour over at least one stop logs the depot, then every stop of the
    list exactly once, in the order in which the stops were chosen, then the
    depot again. *)
Theorem tour_visits_every_stop_once
    network depot rest dists visited full homes' :
  rest ≠ [] →
  nearest_neighbor network (depot :: rest)
  = (Ok (dists, visited, full), homes') →
  ∃ order, visited = depot :: order ++ [depot] ∧ order ≡ₚ rest.
Proof.
  intros Hne H.
  destruct (nearest_neighbor_Ok _ _ _ _ _ _ _ H)
    as (loc & _ & -> & _ & Hcurr & Hinv).
  destruct (Hinv (tour_invariant depot rest)
              (tour_invariant_step network depot rest)
              (tour_invariant_init depot rest))
    as (Hperm & Hhead & _ & _ & _ & Hngb).
  rewrite (Hcurr Hne) in *.
  destruct (going_back loc) eqn:Egb; [|by destruct (Hngb eq_refl Hne)].
  change (depot :: rest ++ ["Auckland Airport"])
    with ((depot :: rest) ++ ["Auckland Airport"]) in Hperm.
  apply Permutation_app_inv_r in Hperm.
  destruct (path_homes loc) as [|x order] eqn:Eph.
  { apply Permutation_length in Hperm. done. }
  simpl in Hhead. injection Hhead as ->.
  exists order. split; [done|]. by apply Permutation_cons_inv in Hperm.
Qed.

Lemma tour_visits_every_stop_once_witness :
  ∃ order,
    ["Auckland Airport"; "A"; "B"; "Auckland Airport"]
    = "Auckland Airport" :: order ++ ["Auckland Airport"] ∧
    order ≡ₚ ["A"; "B"].
Proof.
  apply (tour_visits_every_stop_once G4 "Auckland Airport" ["A"; "B"]
           scenario_out.1.1 _ scenario_out.2 []).
  - discriminate.
  - vm_compute. reflexivity.
Defined.

(** X2. The three logs go together: one distance and one path segment per
    leg, and one visited entry more than legs; a list of the depot and k
    stops, k not zero, makes k + 1 legs. *)
Theorem tour_logs_grow_in_step
    network depot rest dists visited full homes' :
  nearest_neighbor network (depot :: rest)
  = (Ok (dists, visited, full), homes') →
  length full = length dists ∧
  length visited = Datatypes.S (length dists) ∧
  (rest ≠ [] → length dists = Datatypes.S (length rest)).
Proof.
  intros H.
  destruct (nearest_neighbor_Ok _ _ _ _ _ _ _ H)
    as (loc & -> & -> & -> & Hcurr & Hinv).
  destruct (Hinv (tour_invariant depot rest)
              (tour_invariant_step network depot rest)
              (tour_invariant_init depot rest))
    as (Hperm & _ & Hd & Hf & _ & Hngb).
  rewrite length_app. simpl. split; [lia|]. split; [lia|].
  intros Hne. apply Permutation_length in Hperm.
  rewrite !length_app in Hperm. simpl in Hperm.
  destruct (going_back loc) eqn:Egb; [|by destruct (Hngb eq_refl Hne)].
  rewrite length_app in Hperm. simpl in Hperm. lia.
Qed.

Lemma tour_logs_grow_in_step_witness :
  length scenario_out.2 = length scenario_out.1.1 ∧
  length scenario_out.1.2 = Datatypes.S (length scenario_out.1.1) ∧
  (["A"; "B"] ≠ [] → length scenario_out.1.1 = 3%nat).
Proof.
  apply (tour_logs_grow_in_step G4 "Auckland Airport" ["A"; "B"]
           scenario_out.1.1 scenario_out.1.2 scenario_out.2 []).
  vm_compute. reflexivity.
Defined.

Lemma legs_invariant_step network depot rest loc homes loc' homes' :
  tour_invariant depot rest loc homes ∧
  legs_invariant network (length rest) loc →
  nn_body network loc homes = (Ok loc', homes') →
  tour_invariant depot rest loc' homes' ∧
  legs_invariant network (length rest) loc'.
Proof.
  intros [Htour Hlegs] H. split; [by eapply tour_invariant_step|].
  destruct Htour as (Hperm & _ & Hd & Hf & Hgb & _).
  apply nn_body_turn in H.
  destruct H as (d & target & p & Hin & Hq & Hp & -> & _).
  intros i di. cbn [curr_node dist_min path_homes path_homes_full].
  intros Hi. apply lookup_snoc_Some in Hi as [[Hlt Hi]|[-> ->]].
  - destruct (Hlegs i di Hi) as (a & b & p' & Ha & Hb & Hq' & Hp' & Hseg).
    exists a, b, p'. split; [|split; [|split; [|split]]]; try done.
    + by apply lookup_app_l_Some.
    + by apply lookup_app_l_Some.
    + by apply lookup_app_l_Some.
  - exists (curr_node loc), target, p.
    split; [|split; [|split; [|split]]]; try done.
    + apply lookup_app_l_Some. rewrite Hd. by apply list_lookup_middle.
    + rewrite Hd. apply lookup_snoc_Some. right.
      rewrite length_app. simpl. split; [lia|done].
    + rewrite Hd, <- Hf. apply lookup_snoc_Some. right. split; [done|].
      f_equal. apply Permutation_length in Hperm.
      rewrite length_app in Hperm. simpl in Hperm.
      assert (length homes ≠ 0%nat)
        by (by destruct homes; [apply elem_of_nil in Hin|]).
      destruct (going_back loc); simpl in Hperm.
      * specialize (Hgb eq_refl). rewrite length_app in Hperm.
        simpl in Hperm.
        by repeat case_decide; try lia.
      * rewrite app_nil_r in Hperm. by repeat case_decide; try lia.
Qed.

(** X3. Leg i joins entry i of the visited log to entry i + 1, the closing
    entry read as Auckland Airport: its distance and its path segment are
    what the two queries return for that pair, and the segment lacks the end
    node of the path except on the last two legs. *)
Theorem legs_join_consecutive_stops
    network depot rest dists visited full homes' :
  nearest_neighbor network (depot :: rest)
  = (Ok (dists, visited, full), homes') →
  ∀ i d, dists !! i = Some d →
    ∃ a b p,
      (removelast visited ++ ["Auckland Airport"]) !! i = Some a ∧
      (removelast visited ++ ["Auckland Airport"]) !! Datatypes.S i = Some b ∧
      shortest_path_length network a b true = Ok (Length d) ∧
      shortest_path_length network a b false = Ok (Route p) ∧
      full !! i
      = Some (if decide (i + 2 ≤ length rest)%nat then removelast p else p).
Proof.
  intros H. destruct rest as [|stop rest].
  { rewrite nearest_neighbor_cons in H. simpl in H.
    injection H as <- _ _ _. by intros i d Hi. }
  destruct (nearest_neighbor_Ok _ _ _ _ _ _ _ H)
    as (loc & -> & -> & -> & Hcurr & Hinv).
  destruct (Hinv (λ l h, tour_invariant depot (stop :: rest) l h ∧
                         legs_invariant network (length (stop :: rest)) l)
              (legs_invariant_step network depot (stop :: rest)))
    as [_ Hlegs].
  { split; [apply tour_invariant_init|]. by intros i d Hi. }
  rewrite removelast_last, <- Hcurr by done. exact Hlegs.
Qed.

Lemma legs_join_consecutive_stops_witness :
  ∃ a b p,
    (removelast scenario_out.1.2 ++ ["Auckland Airport"]) !! 2%nat = Some a ∧
    (removelast scenario_out.1.2 ++ ["Auckland Airport"]) !! 3%nat = Some b ∧
    shortest_path_length G4 a b true = Ok (Length 8) ∧
    shortest_path_length G4 a b false = Ok (Route p) ∧
    scenario_out.2 !! 2%nat
    = Some (if decide (2 + 2 ≤ 2)%nat then removelast p else p).
Proof.
  apply (legs_join_consecutive_stops G4 "Auckland Airport" ["A"; "B"]
           scenario_out.1.1 scenario_out.1.2 scenario_out.2 []).
  - vm_compute. reflexivity.
  - reflexivity.
Defined.

(** ** When a call returns and how it fails *)

Lemma all_distances_length network curr homes ds :
  all_distances network curr homes = Ok ds → length ds = length homes.
Proof.
  intros H. apply all_distances_Ok in H. symmetry. by eapply Forall2_length.
Qed.

(** A turn over pending stops fails exactly when a distance query fails,
    and then with the failure of that query. *)
Lemma nn_body_outcome network loc homes :
  homes ≠ [] →
  (∃ e, all_distances network (curr_node loc) homes = Raise e ∧
        nn_body network loc homes = (Raise e, homes)) ∨
  (∃ ds loc' homes',
     all_distances network (curr_node loc) homes = Ok ds ∧
     nn_body network loc homes = (Ok loc', homes')).
Proof.
  intros Hne.
  destruct (all_distances network (curr_node loc) homes) as [ds|e] eqn:Hall.
  2:{ left. exists e. split; [done|]. by apply nn_body_distances_Raise. }
  right. exists ds.
  pose proof (all_distances_length _ _ _ _ Hall) as Hlen.
  assert (Hds : ds ≠ []) by (intros ->; by destruct homes).
  destruct (argmin_spec ds Hds) as (d & Hd & _).
  destruct (lookup_lt_is_Some_2 homes (argmin ds)) as [target Ht].
  { rewrite <- Hlen. by eapply lookup_lt_Some. }
  pose proof (Forall2_lookup_lr _ _ _ _ _ _ (all_distances_Ok _ _ _ _ Hall)
                Ht Hd) as Hq.
  simpl in Hq. apply spl_length, nx_queries_agree in Hq as (p & Hp & _).
  assert (Hin : target ∈ homes) by (by eapply list_elem_of_lookup_2).
  unfold nn_body, bind, lift, get_homes, homes_at, homes_remove, homes_append,
    ret, raise.
  rewrite Hall. destruct ds as [|d0 ds]; [done|].
  cbn [np_argmin]. rewrite Hd, Ht.
  unfold shortest_path_length at 1. rewrite Hp.
  cbn [mbind result_bind as_route]. rewrite Ht.
  destruct (negb (going_back loc) && bool_decide (length homes = 1%nat)).
  - destruct (list_remove_is_Some target (homes ++ ["Auckland Airport"]))
      as [h' ->]; [apply elem_of_app; by left|].
    by eexists _, _.
  - destruct (list_remove_is_Some target homes) as [h' ->]; [done|].
    by eexists _, _.
Qed.

Lemma all_distances_total network curr homes :
  (∀ h, h ∈ homes →
        has_node network curr = true ∧ has_node network h = true ∧
        reachable network curr h) →
  ∃ ds, all_distances network curr homes = Ok ds.
Proof.
  induction homes as [|h homes IH]; intros Hall; [by eexists|].
  destruct (Hall h) as (Hc & Hh & Hr); [by left|].
  destruct IH as [ds Hds]; [intros; apply Hall; by right|].
  apply search_decides_reachable, is_settled_true in Hr as [[d p] Hd].
  exists (d :: ds). simpl. unfold shortest_path_length, nx_shortest_path_length.
  rewrite Hc, Hh, Hd. simpl. by rewrite Hds.
Qed.

Lemma nn_while_total network (K : list node) fuel : ∀ loc homes,
  connected_stops network K → "Auckland Airport" ∈ K →
  curr_node loc ∈ K → homes ⊆ K →
  (length homes + (if going_back loc then 0 else 1) ≤ fuel)%nat →
  ∃ loc', nn_while network fuel loc homes = (Ok loc', []).
Proof.
  induction fuel as [|fuel IH]; intros loc homes HK Hair Hcurr Hsub Hfuel.
  - destruct homes; [by eexists|]. simpl in Hfuel. lia.
  - destruct homes as [|h homes]; [by eexists|].
    destruct (nn_body_outcome network loc (h :: homes))
      as [(e' & Hall & _)|(ds & loc1 & homes1 & _ & Hb)]; [done|..].
    + destruct (all_distances_total network (curr_node loc) (h :: homes))
        as [ds Hds]; [|congruence].
      intros x Hx.
      destruct (HK (curr_node loc) x) as [? ?]; [done|by apply Hsub|].
      destruct (HK x x) as [? _]; [by apply Hsub..|]. done.
    + simpl. rewrite Hb. apply IH; try done.
      * apply nn_body_turn in Hb as (d & t & p & Hin & _ & _ & -> & _).
        simpl. by apply Hsub.
      * apply nn_body_turn in Hb as (d & t & p & Hin & _ & _ & _ & Hrm).
        apply list_remove_perm in Hrm. intros x Hx.
        assert (Hx' : x ∈ t :: homes1) by (by right).
        rewrite <- Hrm in Hx'.
        destruct (negb (going_back loc) && _) in Hx'; [|by apply Hsub].
        apply elem_of_app in Hx' as [?|Hx']; [by apply Hsub|].
        by apply list_elem_of_singleton in Hx' as ->.
      * apply nn_body_pending in Hb. lia.
Qed.

(** X4. When the depot, the stops and Auckland Airport are nodes of the
    network, pairwise joined by walks, the call returns a tour and leaves
    the caller's list empty. *)
Theorem nearest_neighbor_returns network depot rest :
  connected_stops network (depot :: rest ++ ["Auckland Airport"]) →
  ∃ out, nearest_neighbor network (depot :: rest) = (Ok out, []).
Proof.
  intros HK. rewrite nearest_neighbor_cons.
  destruct (nn_while_total network (depot :: rest ++ ["Auckland Airport"])
              (Datatypes.S (length rest)) (Locals depot false [] [] []) rest)
    as [loc ->]; try done.
  - right. apply elem_of_app. right. by left.
  - by left.
  - intros x Hx. right. apply elem_of_app. by left.
  - simpl. lia.
  - by eexists.
Qed.

Lemma nearest_neighbor_returns_witness :
  ∃ out, nearest_neighbor G4 ["Auckland Airport"; "A"; "B"] = (Ok out, []).
Proof.
  apply nearest_neighbor_returns. intros a b Ha Hb.
  repeat (apply elem_of_cons in Ha as [->|Ha]);
    try (by apply elem_of_nil in Ha);
    repeat (apply elem_of_cons in Hb as [->|Hb]);
    try (by apply elem_of_nil in Hb);
    (split; [vm_compute; reflexivity|]);
    apply search_decides_reachable; vm_compute; reflexivity.
Defined.

Lemma nn_while_failure network fuel : ∀ loc homes e homes',
  (length homes + (if going_back loc then 0 else 1) ≤ fuel)%nat →
  nn_while network fuel loc homes = (Raise e, homes') →
  e = NodeNotFound ∨ e = Unreachable.
Proof.
  induction fuel as [|fuel IH]; intros loc homes e homes' Hfuel H.
  - destruct homes; [done|]. simpl in Hfuel. lia.
  - destruct homes as [|h homes]; [done|]. simpl in H.
    destruct (nn_body_outcome network loc (h :: homes))
      as [(e' & Hall & Hb)|(ds & loc1 & homes1 & _ & Hb)]; [done|..];
      rewrite Hb in H.
    + injection H as <- _. by eapply all_distances_Raise.
    + eapply IH; [|exact H]. apply nn_body_pending in Hb. lia.
Qed.

(** X5. A call fails in two ways only: with IndexError on the empty list, or
    with the failure of a shortest-path query. *)
Theorem nearest_neighbor_failures network homes e homes' :
  nearest_neighbor network homes = (Raise e, homes') →
  (homes = [] ∧ e = IndexError) ∨ (e = NodeNotFound ∨ e = Unreachable).
Proof.
  destruct homes as [|depot rest].
  { intros [= <- _]. by left. }
  rewrite nearest_neighbor_cons.
  destruct (nn_while network (Datatypes.S (length rest))
              (Locals depot false [] [] []) rest) as [[loc|e'] h] eqn:E;
    [done|].
  intros [= <- _]. right.
  eapply nn_while_failure; [|exact E]. simpl. lia.
Qed.

Lemma nearest_neighbor_failures_witness :
  (["Auckland Airport"; "A"; "C"] = [] ∧ Unreachable = IndexError) ∨
  (Unreachable = NodeNotFound ∨ Unreachable = Unreachable).
Proof.
  apply (nearest_neighbor_failures G4 ["Auckland Airport"; "A"; "C"]
           Unreachable ["A"; "C"]).
  vm_compute. reflexivity.
Defined.

(** ** Distances are not negative *)

Lemma nx_length_nonneg g a b d :
  nonneg g → nx_shortest_path_length g a b = Ok d → 0 ≤ d.
Proof.
  intros Hnn H. apply nx_queries_agree in H as (P & _ & Hh & Hl & Hw & _).
  apply (walk_nonneg g a b); [done|].
  replace d with (0 + d) by lia.
  eapply walk_of_path; [constructor|done..].
Qed.

Lemma total_distance_nonneg ds :
  Forall (λ d, 0 ≤ d) ds → 0 ≤ total_distance ds.
Proof.
  unfold total_distance. induction 1 as [|d ds Hd _ IH]; simpl; lia.
Qed.

(** X6. On a network without negative weights no leg has a negative
    distance, and neither has the total that [solve_region] prints. *)
Theorem tour_distances_nonneg network homes dists visited full homes' :
  nonneg_weights network = true →
  nearest_neighbor network homes = (Ok (dists, visited, full), homes') →
  Forall (λ d, 0 ≤ d) dists ∧ 0 ≤ total_distance dists.
Proof.
  intros Hnn H. apply nonneg_weights_spec in Hnn.
  assert (Hall : Forall (λ d, 0 ≤ d) dists).
  { destruct homes as [|depot rest]; [done|].
    destruct (nearest_neighbor_Ok _ _ _ _ _ _ _ H)
      as (loc & -> & _ & _ & _ & Hinv).
    apply (Hinv (λ l _, Forall (λ d, 0 ≤ d) (dist_min l))); [|done].
    intros l h l' h' Hl Hb.
    apply nn_body_turn in Hb as (d & t & p & _ & Hq & _ & -> & _).
    simpl. apply Forall_app. split; [done|]. constructor; [|done].
    eapply nx_length_nonneg; [done|]. by apply spl_length. }
  split; [done|]. by apply total_distance_nonneg.
Qed.

Lemma tour_distances_nonneg_witness :
  Forall (λ d, 0 ≤ d) scenario_out.1.1 ∧
  0 ≤ total_distance scenario_out.1.1.
Proof.
  apply (tour_distances_nonneg G4 ["Auckland Airport"; "A"; "B"]
           scenario_out.1.1 scenario_out.1.2 scenario_out.2 []).
  - vm_compute. reflexivity.
  - vm_compute. reflexivity.
Defined.

(** ** The path that is plotted *)

Lemma along_roads_cons g a b r :
  along_roads g (a :: b :: r) = true ↔
  (a = b ∨ is_Some (edge_weight g a b)) ∧ along_roads g (b :: r) = true.
Proof.
  change (along_roads g (a :: b :: r))
    with ((bool_decide (a = b) || bool_decide (is_Some (edge_weight g a b)))
          && along_roads g (b :: r)).
  rewrite andb_true_iff, orb_true_iff, !bool_decide_eq_true. done.
Qed.

Lemma path_weight_along g P d :
  path_weight g P = Some d → along_roads g P = true.
Proof.
  revert d. induction P as [|a P IH]; intros d H; [done|].
  destruct P as [|b P]; [done|].
  rewrite path_weight_cons in H. apply along_roads_cons.
  destruct (edge_weight g a b) as [w|]; [|done].
  destruct (path_weight g (b :: P)) as [r|] eqn:E; [|done].
  split; [right; by eexists|]. by eapply IH.
Qed.

Lemma along_roads_glue g X c P :
  along_roads g (X ++ [c]) = true → along_roads g (c :: P) = true →
  along_roads g (X ++ c :: P) = true.
Proof.
  intros HX HP. induction X as [|a X IH]; [done|].
  destruct X as [|b X].
  - simpl app in *. apply along_roads_cons in HX as [Hab _].
    by apply along_roads_cons.
  - change ((a :: b :: X) ++ [c]) with (a :: b :: (X ++ [c])) in HX.
    apply along_roads_cons in HX as [Hab HX].
    change ((a :: b :: X) ++ c :: P) with (a :: b :: (X ++ c :: P)).
    apply along_roads_cons. split; [done|]. by apply IH.
Qed.

Lemma along_roads_repeat g Y t :
  along_roads g Y = true → last Y = Some t →
  along_roads g (Y ++ [t]) = true.
Proof.
  intros HY Hl. destruct Y as [|y Y _] using rev_ind; [done|].
  rewrite last_snoc in Hl. injection Hl as ->.
  rewrite <- app_assoc. apply along_roads_glue; [done|].
  apply along_roads_cons. split; [by left|done].
Qed.

Lemma along_roads_prefix g X Y :
  along_roads g (X ++ Y) = true → along_roads g X = true.
Proof.
  induction X as [|a X IH]; [done|]. destruct X as [|b X]; [done|].
  change ((a :: b :: X) ++ Y) with (a :: b :: (X ++ Y)).
  rewrite !along_roads_cons. intros [? ?]. split; [done|]. by apply IH.
Qed.

Lemma removelast_snoc_last {A} (l : list A) t :
  last l = Some t → removelast l ++ [t] = l.
Proof.
  destruct l as [|y l _] using rev_ind; [done|].
  rewrite last_snoc, removelast_last. by intros [= ->].
Qed.

Lemma plot_invariant_step network depot loc homes loc' homes' :
  plot_invariant network depot loc →
  nn_body network loc homes = (Ok loc', homes') →
  plot_invariant network depot loc'.
Proof.
  intros [Hal Hhd] H.
  apply nn_body_turn in H as (d & t & p & _ & Hq & Hp & -> & _).
  apply spl_length, nx_queries_agree in Hq as (p' & Hp' & Hh & Hl & Hw & _).
  apply spl_route in Hp. rewrite Hp in Hp'. injection Hp' as <-.
  apply path_weight_along in Hw.
  unfold plot_invariant. cbn [curr_node path_homes_full].
  rewrite concat_app. simpl concat. rewrite app_nil_r, <- app_assoc.
  destruct p as [|c P]; [done|]. injection Hh as ->.
  set (X := concat (path_homes_full loc)) in *.
  assert (Hglue : along_roads network (X ++ curr_node loc :: P) = true)
    by (by apply along_roads_glue).
  assert (Hhead : head (X ++ curr_node loc :: P) = Some depot)
    by (by destruct X).
  case_decide.
  - by rewrite (removelast_snoc_last _ _ Hl).
  - rewrite app_assoc. split.
    + apply along_roads_repeat; [done|].
      rewrite last_app, Hl. done.
    + rewrite <- app_assoc. by destruct X.
Qed.

(** X7. The flattened path that [solve_region] plots starts at the depot,
    ends at Auckland Airport, and any two consecutive nodes of it are joined
    by an edge or are the same node. *)
Theorem plotted_path_keeps_to_roads
    network depot rest dists visited full homes' :
  rest ≠ [] →
  nearest_neighbor network (depot :: rest)
  = (Ok (dists, visited, full), homes') →
  along_roads network (flat_region_path_full full) = true ∧
  head (flat_region_path_full full) = Some depot ∧
  last (flat_region_path_full full) = Some "Auckland Airport".
Proof.
  intros Hne H.
  destruct (last_seam_repeats_stop _ _ _ _ _ _ _ Hne H)
    as (before & to_stop & back & stop & Hfull & _ & Hhb & _).
  destruct (return_leg_ends_at_airport _ _ _ _ _ _ _ Hne H)
    as (_ & stop' & back' & Hlast & _ & Hair).
  destruct (nearest_neighbor_Ok _ _ _ _ _ _ _ H)
    as (loc & _ & _ & -> & _ & Hinv).
  destruct (Hinv (λ l _, plot_invariant network depot l)) as [Hal Hhd].
  { intros l h l' h'. apply plot_invariant_step. }
  { by split. }
  unfold flat_region_path_full.
  rewrite Hfull in Hlast.
  change [to_stop; back] with ([to_stop] ++ [back]) in Hlast.
  rewrite app_assoc, last_snoc in Hlast. injection Hlast as <-.
  assert (Hflat : concat (path_homes_full loc)
                  = concat (before ++ [to_stop]) ++ back).
  { rewrite Hfull. change [to_stop; back] with ([to_stop] ++ [back]).
    rewrite app_assoc, concat_app. simpl. by rewrite app_nil_r. }
  split; [by eapply along_roads_prefix|].
  rewrite Hflat in *. destruct back as [|b back]; [done|]. split.
  - rewrite <- Hhd. by destruct (concat (before ++ [to_stop])).
  - by rewrite last_app, Hair.
Qed.

Lemma plotted_path_keeps_to_roads_witness :
  along_roads G4 (flat_region_path_full scenario_out.2) = true ∧
  head (flat_region_path_full scenario_out.2) = Some "Auckland Airport" ∧
  last (flat_region_path_full scenario_out.2) = Some "Auckland Airport".
Proof.
  apply (plotted_path_keeps_to_roads G4 "Auckland Airport" ["A"; "B"]
           scenario_out.1.1 scenario_out.1.2 scenario_out.2 []).
  - discriminate.
  - vm_compute. reflexivity.
Defined.

(** ** The stitched path is a walk *)

Lemma join_single_head X t : X ≠ [] → head (join X [t]) = head X.
Proof.
  intros HX. unfold join. destruct (decide (last X = Some t)).
  - by rewrite app_nil_r.
  - by destruct X.
Qed.

Lemma stitch_invariant_step network depot loc homes loc' homes' :
  stitch_invariant network depot loc homes →
  nn_body network loc homes = (Ok loc', homes') →
  stitch_invariant network depot loc' homes'.
Proof.
  intros (Hw & Hh & _) H.
  destruct (nn_body_stitch _ _ _ _ _ H Hw) as [Hw' Hlast'].
  split; [done|]. split.
  - pose proof H as Hturn.
    apply nn_body_turn in Hturn as (d & t & p & _ & Hq & Hp & -> & _).
    apply spl_length, nx_queries_agree in Hq as (p' & Hp' & Hhd & Hl & _).
    apply spl_route in Hp. rewrite Hp in Hp'. injection Hp' as <-.
    cbn [curr_node path_homes_full]. rewrite stitch_snoc.
    set (T := stitch (path_homes_full loc)) in *.
    pose proof (join_single_last T (curr_node loc)) as HW.
    assert (HWne : join T [curr_node loc] ≠ [])
      by (intros E; by rewrite E in HW).
    destruct p as [|c P]; [done|]. injection Hhd as ->.
    assert (Hseg : ∀ Q, head (join (join T (curr_node loc :: Q)) [t])
                        = Some depot).
    { intros Q. rewrite (join_head T (curr_node loc) Q).
      rewrite join_single_head by (by destruct (join T [curr_node loc])).
      rewrite <- Hh. by destruct (join T [curr_node loc]). }
    case_decide; [|apply Hseg].
    destruct P as [|z P _] using rev_ind.
    + simpl in Hl. injection Hl as <-. by cbn [removelast join].
    + change (curr_node loc :: P ++ [z]) with ((curr_node loc :: P) ++ [z]).
      rewrite removelast_last. apply Hseg.
  - intros -> _. apply Hlast'. by eapply nn_body_last_turn.
Qed.

(** X8. The stitched full path of a tour over at least one stop is a walk
    of the network from the depot to Auckland Airport. *)
Theorem stitched_path_is_walk
    network depot rest dists visited full homes' :
  rest ≠ [] →
  nearest_neighbor network (depot :: rest)
  = (Ok (dists, visited, full), homes') →
  is_walk network depot "Auckland Airport" (stitch full).
Proof.
  intros Hne H.
  destruct (last_seam_repeats_stop _ _ _ _ _ _ _ Hne H)
    as (before & to_stop & back & stop & Hfull & _).
  destruct (nearest_neighbor_Ok _ _ _ _ _ _ _ H)
    as (loc & _ & _ & -> & Hcurr & Hinv).
  destruct (Hinv (stitch_invariant network depot)
              (stitch_invariant_step network depot))
    as (Hw & Hh & Hl).
  { by repeat split. }
  rewrite (Hcurr Hne) in *.
  assert (Hlast : last (stitch (path_homes_full loc))
                  = Some "Auckland Airport").
  { apply Hl; [done|]. rewrite Hfull. by destruct before. }
  rewrite (join_ends _ _ Hlast) in Hw, Hh.
  by repeat split.
Qed.

Lemma stitched_path_is_walk_witness :
  is_walk G4 "Auckland Airport" "Auckland Airport" (stitch scenario_out.2).
Proof.
  apply (stitched_path_is_walk G4 "Auckland Airport" ["A"; "B"]
           scenario_out.1.1 scenario_out.1.2 scenario_out.2 []).
  - discriminate.
  - vm_compute. reflexivity.
Defined.

(** ** Region slices, whatever the order of the table *)

Lemma region_stops_span data search before block after :
  spans data search before block after →
  region_stops data search
  = Ok ("Auckland Airport" :: ((λ row, row.1.1) <$> block)).
Proof.
  intros (-> & (r1 & Hhead & Hr1) & (r2 & Hlast & Hr2) & Hbefore & Hafter).
  unfold region_stops.
  set (label := λ row : string * string * string, row.2).
  set (house := λ row : string * string * string, row.1.1).
  assert (Hfirst : list_index search (label <$> before ++ block ++ after)
                   = Some (length before)).
  { destruct block as [|b block]; [done|]. injection Hhead as ->.
    rewrite !fmap_app. simpl. rewrite (Hr1 : label r1 = search).
    rewrite <- (length_fmap label before).
    apply list_index_first. by apply Forall_fmap. }
  assert (Hrev : list_index search
                   (reverse (label <$> before ++ block ++ after))
                 = Some (length after)).
  { destruct block as [|b block _] using rev_ind; [done|].
    rewrite last_snoc in Hlast. injection Hlast as ->.
    rewrite !fmap_app, !reverse_app. simpl.
    rewrite (Hr2 : label r2 = search), <- app_assoc. simpl.
    rewrite <- (length_reverse after), <- (length_fmap label (reverse after)),
      (fmap_reverse label).
    apply list_index_first. apply Forall_reverse.
    by apply Forall_fmap. }
  rewrite Hfirst, Hrev. simpl. do 2 f_equal.
  rewrite !fmap_app, !length_app, !length_fmap.
  replace (length before + (length block + length after) - length after)%nat
    with (length (house <$> before) + length (house <$> block))%nat
    by (rewrite !length_fmap; lia).
  rewrite <- (length_fmap house before) at 1.
  apply py_slice_middle.
Qed.

Lemma first_labelled
    (search : string) (data : list (string * string * string)) :
  Forall (λ row, row.2 ≠ search) data ∨
  ∃ before row rest,
    data = before ++ row :: rest ∧ row.2 = search ∧
    Forall (λ row, row.2 ≠ search) before.
Proof.
  induction data as [|r data IH]; [by left|].
  destruct (decide (r.2 = search)) as [Hr|Hr].
  - right. exists [], r, data. by repeat split.
  - destruct IH as [IH|(before & row & rest & -> & Hrow & Hb)].
    + left. by constructor.
    + right. exists (r :: before), row, rest. repeat split; try done.
      by constructor.
Qed.

Lemma last_labelled
    (search : string) (data : list (string * string * string)) :
  Forall (λ row, row.2 ≠ search) data ∨
  ∃ front row after,
    data = front ++ row :: after ∧ row.2 = search ∧
    Forall (λ row, row.2 ≠ search) after.
Proof.
  destruct (first_labelled search (reverse data))
    as [H|(before & row & rest & Hrev & Hrow & Hb)].
  - left. by apply Forall_reverse.
  - right. exists (reverse rest), row, (reverse before).
    apply (f_equal reverse) in Hrev.
    rewrite reverse_involutive, reverse_app, reverse_cons, <- app_assoc in Hrev.
    split; [done|]. split; [done|]. by apply Forall_reverse.
Qed.

(** A table in which [search] occurs spans from its first to its last
    occurrence. *)
Lemma spans_exists
    (search : string) (data : list (string * string * string)) :
  Forall (λ row, row.2 ≠ search) data ∨
  ∃ before block after, spans data search before block after.
Proof.
  destruct (first_labelled search data)
    as [H|(before & r1 & rest & -> & Hr1 & Hb)]; [by left|].
  right.
  destruct (last_labelled search (r1 :: rest))
    as [H|(front & r2 & after & Hsplit & Hr2 & Ha)].
  { by inversion H. }
  exists before, (front ++ [r2]), after. split.
  { rewrite Hsplit. by rewrite <- (app_assoc front). }
  split.
  { exists r1. split; [|done].
    destruct front as [|f front]; simpl in *; congruence. }
  split; [|done]. exists r2. by rewrite last_snoc.
Qed.

Lemma labelled_or_not
    (search : string) (data : list (string * string * string)) :
  Forall (λ row, row.2 ≠ search) data →
  Exists (λ row, row.2 = search) data → False.
Proof.
  intros Hall Hex. apply Exists_exists in Hex as (row & Hin & Hrow).
  rewrite Forall_forall in Hall. by apply (Hall row).
Qed.

(** X9. A slice fails when no row carries the label, with the ValueError
    of [list.index], and it fails in no other case and in no other way.
    When a row carries the label, the slice is the depot followed by the
    houses of all rows from the first to the last row that carries the
    label: no row with the label is left out, and rows with another label
    that lie in between are taken along. *)
Theorem region_stops_outcome
    (data : list (string * string * string)) (search : string) :
  (Forall (λ row, row.2 ≠ search) data →
   region_stops data search = Raise ValueError) ∧
  (∀ e, region_stops data search = Raise e →
        e = ValueError ∧ Forall (λ row, row.2 ≠ search) data) ∧
  (Exists (λ row, row.2 = search) data →
   ∃ before block after,
     spans data search before block after ∧
     region_stops data search
     = Ok ("Auckland Airport" :: ((λ row, row.1.1) <$> block)) ∧
     ∀ row, row ∈ data → row.2 = search → row ∈ block).
Proof.
  destruct (spans_exists search data) as [H|(before & block & after & Hs)].
  - assert (Hr : region_stops data search = Raise ValueError).
    { unfold region_stops. rewrite list_index_absent; [done|].
      by apply Forall_fmap. }
    split; [done|]. split.
    + rewrite Hr. by intros e [= <-].
    + intros Hex. by destruct (labelled_or_not _ _ H Hex).
  - pose proof (region_stops_span _ _ _ _ _ Hs) as Hr.
    split; [|split].
    + intros Hall. destruct Hs as (-> & (r1 & Hhead & Hr1) & _).
      apply Forall_app in Hall as [_ Hall].
      apply Forall_app in Hall as [Hall _].
      destruct block as [|b block]; [done|]. injection Hhead as ->.
      by inversion Hall.
    + rewrite Hr. by intros e [=].
    + intros _. exists before, block, after. split; [done|]. split; [done|].
      destruct Hs as (-> & _ & _ & Hb & Ha).
      intros row Hin Hrow. rewrite Forall_forall in Hb, Ha.
      apply elem_of_app in Hin as [Hin|Hin]; [by destruct (Hb _ Hin)|].
      apply elem_of_app in Hin as [Hin|Hin]; [done|by destruct (Ha _ Hin)].
Qed.

Lemma region_stops_outcome_witness :
  region_stops mixed_table "Waiheke" = Raise ValueError ∧
  ∃ before block after,
    spans mixed_table "North Shore" before block after ∧
    region_stops mixed_table "North Shore"
    = Ok ("Auckland Airport" :: ((λ row, row.1.1) <$> block)) ∧
    ∀ row, row ∈ mixed_table → row.2 = "North Shore" → row ∈ block.
Proof.
  split.
  - apply (proj1 (region_stops_outcome mixed_table "Waiheke")).
    by repeat constructor.
  - apply (proj2 (proj2 (region_stops_outcome mixed_table "North Shore"))).
    apply Exists_cons_tl, Exists_cons_hd. reflexivity.
Defined.

Lemma region_stops_cases
    (data : list (string * string * string)) (search : string) :
  (Forall (λ row, row.2 ≠ search) data ∧
   region_stops data search = Raise ValueError) ∨
  (Exists (λ row, row.2 = search) data ∧
   ∃ before block after,
     spans data search before block after ∧
     region_stops data search
     = Ok ("Auckland Airport" :: ((λ row, row.1.1) <$> block))).
Proof.
  destruct (spans_exists search data) as [H|(before & block & after & Hs)].
  - left. split; [done|]. unfold region_stops.
    rewrite list_index_absent; [done|]. by apply Forall_fmap.
  - right. split.
    + destruct Hs as (-> & (r1 & Hhead & Hr1) & _).
      destruct block as [|b block]; [done|]. injection Hhead as ->.
      apply Exists_app. right. by apply Exists_cons_hd.
    + exists before, block, after. split; [done|].
      by apply (region_stops_span _ _ before block after).
Qed.

Ltac label_missing L H :=
  split; [done|]; split;
  [intros e [= <-]; split; [done|]; exists L;
   split; [unfold region_names; set_solver|done]
  |intros Hall; exfalso; apply (labelled_or_not L _ H); apply Hall;
   unfold region_names; set_solver].

(** X10. The four slices of [main] fail, with ValueError, when one of the
    four labels occurs in no row, whichever of the four it is, and they
    fail in no other case. When every label occurs, each slice is the depot
    followed by the houses from the first to the last row of its label. *)
Theorem main_regions_outcome (data : list (string * string * string)) :
  ((∃ L, L ∈ region_names ∧ Forall (λ row, row.2 ≠ L) data) →
   main_regions data = Raise ValueError) ∧
  (∀ e, main_regions data = Raise e →
        e = ValueError ∧
        ∃ L, L ∈ region_names ∧ Forall (λ row, row.2 ≠ L) data) ∧
  ((∀ L, L ∈ region_names → Exists (λ row, row.2 = L) data) →
   ∃ AI NS SA WA,
     (∃ before after, spans data "Auckland Isthmus" before AI after) ∧
     (∃ before after, spans data "North Shore" before NS after) ∧
     (∃ before after, spans data "South Auckland" before SA after) ∧
     (∃ before after, spans data "West Auckland" before WA after) ∧
     main_regions data
     = Ok ("Auckland Airport" :: ((λ row, row.1.1) <$> AI),
           "Auckland Airport" :: ((λ row, row.1.1) <$> NS),
           "Auckland Airport" :: ((λ row, row.1.1) <$> SA),
           "Auckland Airport" :: ((λ row, row.1.1) <$> WA))).
Proof.
  unfold main_regions.
  destruct (region_stops_cases data "Auckland Isthmus")
    as [[H1 E1]|(H1 & b1 & k1 & a1 & S1 & E1)]; rewrite E1; simpl.
  { label_missing "Auckland Isthmus" H1. }
  destruct (region_stops_cases data "North Shore")
    as [[H2 E2]|(H2 & b2 & k2 & a2 & S2 & E2)]; rewrite E2; simpl.
  { label_missing "North Shore" H2. }
  destruct (region_stops_cases data "South Auckland")
    as [[H3 E3]|(H3 & b3 & k3 & a3 & S3 & E3)]; rewrite E3; simpl.
  { label_missing "South Auckland" H3. }
  destruct (region_stops_cases data "West Auckland")
    as [[H4 E4]|(H4 & b4 & k4 & a4 & S4 & E4)]; rewrite E4; simpl.
  { label_missing "West Auckland" H4. }
  split; [|split].
  - intros (L & HL & Hall). exfalso. apply (labelled_or_not L data Hall).
    unfold region_names in HL. set_unfold in HL.
    destruct HL as [->|[->|[->|[->|[]]]]]; done.
  - by intros e [=].
  - intros _. exists k1, k2, k3, k4.
    split; [by exists b1, a1|]. split; [by exists b2, a2|].
    split; [by exists b3, a3|]. split; [by exists b4, a4|]. done.
Qed.

Lemma main_regions_outcome_witness :
  ∃ AI NS SA WA,
    (∃ before after, spans mixed_table "Auckland Isthmus" before AI after) ∧
    (∃ before after, spans mixed_table "North Shore" before NS after) ∧
    (∃ before after, spans mixed_table "South Auckland" before SA after) ∧
    (∃ before after, spans mixed_table "West Auckland" before WA after) ∧
    main_regions mixed_table
    = Ok ("Auckland Airport" :: ((λ row, row.1.1) <$> AI),
          "Auckland Airport" :: ((λ row, row.1.1) <$> NS),
          "Auckland Airport" :: ((λ row, row.1.1) <$> SA),
          "Auckland Airport" :: ((λ row, row.1.1) <$> WA)).
Proof.
  apply (proj2 (proj2 (main_regions_outcome mixed_table))).
  intros L HL. unfold region_names in HL. set_unfold in HL.
  destruct HL as [->|[->|[->|[->|[]]]]];
    repeat first [by apply Exists_cons_hd | apply Exists_cons_tl].
Defined.

Lemma filter_label_none (L : string) (l : list (string * string * string)) :
  Forall (λ row, row.2 ≠ L) l → filter (λ row, row.2 = L) l = [].
Proof.
  induction 1 as [|r l Hr _ IH]; [done|].
  by rewrite filter_cons_False.
Qed.

Lemma filter_label_all (L : string) (l : list (string * string * string)) :
  Forall (λ row, row.2 = L) l → filter (λ row, row.2 = L) l = l.
Proof.
  induction 1 as [|r l Hr _ IH]; [done|].
  rewrite filter_cons_True by done. by rewrite IH.
Qed.

Lemma region_stops_grouped data L :
  grouped data L →
  region_stops data L
  = Ok ("Auckland Airport"
          :: ((λ row, row.1.1) <$> filter (λ row, row.2 = L) data)).
Proof.
  intros (before & block & after & -> & Hne & Hblock & Hb & Ha).
  rewrite !filter_app, (filter_label_none _ _ Hb), (filter_label_none _ _ Ha),
    (filter_label_all _ _ Hblock), app_nil_r. simpl.
  apply (region_stops_span _ _ before block after).
  split; [done|]. rewrite Forall_forall in Hblock.
  split; [|split; [|done]].
  - destruct block as [|r block]; [done|]. exists r. split; [done|].
    apply Hblock. by left.
  - destruct block as [|r block _] using rev_ind; [done|]. exists r.
    rewrite last_snoc. split; [done|]. apply Hblock.
    apply elem_of_app. right. by left.
Qed.

Lemma four_filters (data : list (string * string * string)) :
  Forall (λ row, row.2 ∈ region_names) data →
  filter (λ row, row.2 = "Auckland Isthmus") data
  ++ filter (λ row, row.2 = "North Shore") data
  ++ filter (λ row, row.2 = "South Auckland") data
  ++ filter (λ row, row.2 = "West Auckland") data
  ≡ₚ data.
Proof.
  induction 1 as [|r data Hr _ IH]; [done|].
  unfold region_names in Hr.
  repeat (apply elem_of_cons in Hr as [Hr|Hr]);
    [..|by apply elem_of_nil in Hr];
    repeat (first [rewrite (filter_cons_True _ r) by (simpl; congruence)
                  |rewrite (filter_cons_False _ r) by (rewrite Hr; done)]);
    simpl; symmetry; rewrite ?app_assoc;
    first [apply Permutation_cons_app | apply perm_skip];
    rewrite <- ?app_assoc; by symmetry.
Qed.

(** X11. On a table whose rows all carry one of the four labels, each label
    on one block of rows, the four slices without their depots hold every
    house of the table exactly once. *)
Theorem main_regions_partition (data : list (string * string * string)) :
  Forall (λ row, row.2 ∈ region_names) data →
  (∀ L, L ∈ region_names → grouped data L) →
  ∃ AI NS SA WA,
    main_regions data
    = Ok ("Auckland Airport" :: AI, "Auckland Airport" :: NS,
          "Auckland Airport" :: SA, "Auckland Airport" :: WA) ∧
    AI ++ NS ++ SA ++ WA ≡ₚ (λ row, row.1.1) <$> data.
Proof.
  intros Hall Hgrouped. unfold main_regions.
  rewrite !region_stops_grouped by (apply Hgrouped; set_solver).
  eexists _, _, _, _. split; [done|].
  rewrite <- !fmap_app. by rewrite four_filters.
Qed.

Lemma main_regions_partition_witness :
  ∃ AI NS SA WA,
    main_regions sample_table
    = Ok ("Auckland Airport" :: AI, "Auckland Airport" :: NS,
          "Auckland Airport" :: SA, "Auckland Airport" :: WA) ∧
    AI ++ NS ++ SA ++ WA ≡ₚ (λ row, row.1.1) <$> sample_table.
Proof.
  apply main_regions_partition.
  - repeat constructor; unfold region_names; simpl; set_solver.
  - intros L HL. unfold region_names in HL.
    repeat (apply elem_of_cons in HL as [->|HL]);
      [..|by apply elem_of_nil in HL].
    + exists [], (take 1 sample_table), (drop 1 sample_table).
      repeat split; [discriminate|repeat constructor..];
        simpl; discriminate.
    + exists (take 1 sample_table), (take 2 (drop 1 sample_table)),
        (drop 3 sample_table).
      repeat split; [discriminate|repeat constructor..];
        simpl; discriminate.
    + exists (take 3 sample_table), (take 1 (drop 3 sample_table)),
        (drop 4 sample_table).
      repeat split; [discriminate|repeat constructor..];
        simpl; discriminate.
    + exists (take 4 sample_table), (drop 4 sample_table), [].
      repeat split; [discriminate|repeat constructor..];
        simpl; discriminate.
Defined.

(** ** Text files *)

Lemma append_cons x (a b : string) : String x a +:+ b = String x (a +:+ b).
Proof. reflexivity. Qed.

Lemma append_nil (b : string) : EmptyString +:+ b = b.
Proof. reflexivity. Qed.

Lemma append_nil_r (a : string) : a +:+ EmptyString = a.
Proof.
  induction a as [|x a IH]; [done|]. by rewrite append_cons, IH.
Qed.

Lemma append_assoc (a b c : string) : (a +:+ b) +:+ c = a +:+ (b +:+ c).
Proof.
  induction a as [|x a IH]; [done|]. by rewrite !append_cons, IH.
Qed.

Lemma append_length (a b : string) :
  String.length (a +:+ b) = (String.length a + String.length b)%nat.
Proof.
  induction a as [|x a IH]; [done|]. rewrite append_cons. simpl.
  by rewrite IH.
Qed.

Lemma write_entries_text f data : write_entries f data = f +:+ text_of data.
Proof.
  revert f. induction data as [|p data IH]; intros f.
  - simpl. by rewrite append_nil_r.
  - cbn [write_entries text_of]. by rewrite IH, !append_assoc.
Qed.

Lemma save_data_text name data fs :
  save_data name data fs !! (name +:+ ".txt") = Some (text_of data).
Proof.
  unfold save_data. rewrite lookup_insert_eq. by rewrite write_entries_text.
Qed.

Lemma text_of_length data : (length data ≤ String.length (text_of data))%nat.
Proof.
  induction data as [|p data IH]; simpl; [lia|].
  rewrite append_length. simpl. lia.
Qed.

Lemma readline_one_line p t :
  one_line p = true →
  readline (p +:+ String newline t) = (p +:+ String newline EmptyString, t).
Proof.
  induction p as [|c p IH]; intros H.
  { by rewrite !append_nil. }
  simpl in H. apply andb_true_iff in H as [H Hp].
  apply andb_true_iff in H as [Hn Hr].
  apply negb_true_iff, bool_decide_eq_false in Hn, Hr.
  rewrite !append_cons. cbn [readline].
  rewrite !decide_False by done. by rewrite (IH Hp).
Qed.

Lemma rstrip_newline p : rstrip (p +:+ String newline EmptyString) = rstrip p.
Proof.
  induction p as [|c p IH]; [done|].
  rewrite append_cons. cbn [rstrip]. by rewrite IH.
Qed.

Lemma strip_newline p : strip (p +:+ String newline EmptyString) = strip p.
Proof. unfold strip. by rewrite rstrip_newline. Qed.

Lemma rstrip_blank s : rstrip s = EmptyString ↔ blank s = true.
Proof.
  induction s as [|c s IH]; [done|]. cbn [rstrip blank].
  destruct (rstrip s) as [|x r] eqn:E.
  - destruct (is_space c); simpl; [by rewrite <- IH|].
    split; done.
  - split; [done|]. intros H. apply andb_true_iff in H as [_ H].
    by apply IH in H.
Qed.

Lemma lstrip_nonblank s : blank s = false → lstrip s ≠ EmptyString.
Proof.
  induction s as [|c s IH]; [done|]. cbn [lstrip blank].
  destruct (is_space c); simpl; [done|]. by intros _.
Qed.

Lemma rstrip_keeps_blank s : blank (rstrip s) = blank s.
Proof.
  induction s as [|c s IH]; [done|]. cbn [rstrip blank].
  destruct (rstrip s) as [|x r] eqn:E.
  - rewrite <- IH. destruct (is_space c) eqn:Ec; simpl; [done|].
    by rewrite Ec.
  - cbn [blank] in *. by rewrite <- IH.
Qed.

Lemma strip_empty s : strip s = EmptyString ↔ blank s = true.
Proof.
  unfold strip. split.
  - intros H. destruct (blank s) eqn:E; [done|].
    rewrite <- rstrip_keeps_blank in E. by apply lstrip_nonblank in E.
  - intros H. apply rstrip_blank in H. by rewrite H.
Qed.

Lemma readline_blank p t :
  blank p = true →
  blank (readline (p +:+ String newline t)).1 = true.
Proof.
  induction p as [|c p IH]; intros H.
  { by rewrite append_nil. }
  simpl in H. apply andb_true_iff in H as [Hc Hp].
  rewrite append_cons. cbn [readline].
  destruct (decide (c = newline)); [done|].
  destruct (decide (c = carriage_return)); [done|].
  specialize (IH Hp). destruct (readline (p +:+ String newline t)).
  simpl in *. by rewrite Hc.
Qed.

Lemma load_loop_saved good rest fuel acc :
  Forall (λ p, one_line p = true ∧ strip p ≠ EmptyString) good →
  (rest = [] ∨ ∃ p rest', rest = p :: rest' ∧ strip p = EmptyString) →
  (length good < fuel)%nat →
  load_loop fuel (text_of (good ++ rest)) acc
  = acc ++ (strip <$> good) ++ [EmptyString].
Proof.
  intros Hgood Hrest. revert fuel acc.
  induction Hgood as [|p good [Hp Hs] _ IH]; intros fuel acc Hfuel.
  - destruct fuel as [|fuel]; [simpl in Hfuel; lia|]. simpl app.
    destruct Hrest as [->|(p & rest' & -> & Hp)]; [done|].
    cbn [load_loop text_of].
    pose proof (readline_blank p (text_of rest')) as Hb.
    destruct (readline (p +:+ String newline (text_of rest'))) as [line f'].
    simpl in Hb. rewrite (proj2 (strip_empty line))
      by (apply Hb; by apply strip_empty).
    by rewrite decide_True.
  - destruct fuel as [|fuel]; [simpl in Hfuel; lia|].
    cbn [app load_loop text_of]. rewrite (readline_one_line _ _ Hp).
    rewrite strip_newline. rewrite decide_False by done.
    rewrite IH by (simpl in Hfuel; lia).
    by rewrite <- app_assoc.
Qed.

(** X12. Loading what was saved: the entries before the first entry that is
    empty or white space come back stripped, followed by one empty string;
    that entry and all entries after it are lost. The entries that come
    back must not hold a newline or a carriage return. *)
Theorem load_after_save name (good rest : list string) (fs : files) :
  Forall (λ p, one_line p = true ∧ strip p ≠ EmptyString) good →
  (rest = [] ∨ ∃ p rest', rest = p :: rest' ∧ strip p = EmptyString) →
  load_data name (save_data name (good ++ rest) fs)
  = Read ((strip <$> good) ++ [EmptyString]).
Proof.
  intros Hgood Hrest. unfold load_data. rewrite save_data_text.
  f_equal. rewrite (load_loop_saved good rest _ [] Hgood Hrest); [done|].
  pose proof (text_of_length (good ++ rest)) as H.
  rewrite length_app in H. lia.
Qed.

Lemma load_after_save_witness :
  load_data "path_1" (save_data "path_1" sample_entries ∅)
  = Read ["Auckland Airport"; "A"; ""].
Proof.
  apply (load_after_save "path_1" ["Auckland Airport"; " A "] [""; "B"] ∅).
  - repeat constructor; vm_compute; discriminate.
  - right. exists "", ["B"]. split; vm_compute; reflexivity.
Defined.

Lemma lstrip_idem s : lstrip (lstrip s) = lstrip s.
Proof.
  induction s as [|c s IH]; [done|]. cbn [lstrip].
  destruct (is_space c) eqn:E; [done|]. cbn [lstrip]. by rewrite E.
Qed.

Lemma rstrip_idem s : rstrip (rstrip s) = rstrip s.
Proof.
  induction s as [|c s IH]; [done|]. cbn [rstrip].
  destruct (rstrip s) as [|x r] eqn:E.
  - destruct (is_space c) eqn:Ec; [done|]. cbn [rstrip]. by rewrite Ec.
  - cbn [rstrip] in *. by rewrite IH.
Qed.

Lemma rstrip_lstrip s : rstrip s = s → rstrip (lstrip s) = lstrip s.
Proof.
  induction s as [|c s IH]; [done|]. intros H. cbn [lstrip].
  destruct (is_space c) eqn:Ec; [|done].
  apply IH. cbn [rstrip] in H. rewrite Ec in H.
  destruct (rstrip s) as [|x r]; [done|]. by injection H.
Qed.

Lemma strip_idem s : strip (strip s) = strip s.
Proof.
  unfold strip.
  rewrite (rstrip_lstrip (rstrip s)) by apply rstrip_idem.
  apply lstrip_idem.
Qed.

Lemma readline_shorter f :
  f ≠ EmptyString →
  (readline f).1 ≠ EmptyString ∧
  (String.length (readline f).2 < String.length f)%nat.
Proof.
  induction f as [|c f IH]; [done|]. intros _. cbn [readline].
  destruct (decide (c = newline)); [simpl; split; [done|lia]|].
  destruct (decide (c = carriage_return)).
  { simpl. split; [done|]. destruct f as [|c' f]; simpl; [lia|].
    destruct (decide (c' = newline)); simpl; lia. }
  destruct f as [|c' f]; [simpl; split; [done|lia]|].
  destruct IH as [_ IH]; [done|].
  destruct (readline (String c' f)) as [line rest].
  simpl in *. split; [done|lia].
Qed.

Lemma load_loop_shape fuel : ∀ f acc,
  (String.length f < fuel)%nat →
  ∃ entries,
    load_loop fuel f acc = acc ++ entries ++ [EmptyString] ∧
    Forall (λ x, x ≠ EmptyString ∧ strip x = x) entries.
Proof.
  induction fuel as [|fuel IH]; intros f acc Hfuel; [lia|].
  cbn [load_loop].
  destruct (decide (f = EmptyString)) as [->|Hf].
  { exists []. by split. }
  destruct (readline_shorter f Hf) as [_ Hlen].
  destruct (readline f) as [line f']. simpl in Hlen.
  destruct (decide (strip line = EmptyString)) as [->|Hline].
  { exists []. by split. }
  destruct (IH f' (acc ++ [strip line])) as (entries & -> & Hall); [lia|].
  exists (strip line :: entries). split.
  - by rewrite <- app_assoc.
  - constructor; [|done]. split; [done|apply strip_idem].
Qed.

(** X13. Whatever the file holds, the list loaded ends with an empty
    string, and no other entry is empty or has white space at an end. *)
Theorem load_data_shape name (fs : files) loaded :
  load_data name fs = Read loaded →
  ∃ entries,
    loaded = entries ++ [EmptyString] ∧
    Forall (λ x, x ≠ EmptyString ∧ strip x = x) entries.
Proof.
  unfold load_data. destruct (fs !! (name +:+ ".txt")) as [text|]; [|done].
  intros [= <-].
  destruct (load_loop_shape (Datatypes.S (String.length text)) text [])
    as (entries & Heq & Hall); [lia|].
  by exists entries.
Qed.

Lemma load_data_shape_witness :
  ∃ entries,
    ["Auckland Airport"; "A"; ""] = entries ++ [EmptyString] ∧
    Forall (λ x, x ≠ EmptyString ∧ strip x = x) entries.
Proof.
  apply (load_data_shape "path_1" (save_data "path_1" sample_entries ∅)).
  vm_compute. reflexivity.
Defined.

Lemma file_lines_saved data : ∀ fuel,
  Forall (λ p, one_line p = true) data →
  (length data ≤ fuel)%nat →
  file_lines fuel (text_of data)
  = (λ p, p +:+ String newline EmptyString) <$> data.
Proof.
  induction data as [|p data IH]; intros fuel Hall Hfuel.
  - by destruct fuel.
  - destruct fuel as [|fuel]; [simpl in Hfuel; lia|].
    apply Forall_cons in Hall as [Hp Hall].
    cbn [file_lines text_of]. rewrite (readline_one_line _ _ Hp).
    rewrite decide_False.
    + csimpl. f_equal. apply IH; [done|simpl in Hfuel; lia].
    + intros H. apply (f_equal String.length) in H.
      rewrite append_length in H. simpl in H. lia.
Qed.

(** X14. [get_rest_homes] reads back every saved entry, stripped, without a
    closing empty string and without stopping at an empty entry. *)
Theorem get_rest_homes_after_save name (data : list string) (fs : files) :
  Forall (λ p, one_line p = true) data →
  get_rest_homes (name +:+ ".txt") (save_data name data fs)
  = Read (strip <$> data).
Proof.
  intros Hall. unfold get_rest_homes. rewrite save_data_text. f_equal.
  rewrite (file_lines_saved data _ Hall) by apply text_of_length.
  rewrite <- list_fmap_compose. apply list_fmap_ext.
  intros i p _. simpl. apply strip_newline.
Qed.

Lemma get_rest_homes_after_save_witness :
  get_rest_homes "path_1.txt" (save_data "path_1" sample_entries ∅)
  = Read ["Auckland Airport"; "A"; ""; "B"].
Proof.
  apply (get_rest_homes_after_save "path_1" sample_entries ∅).
  repeat constructor.
Defined.
